(** * Universal Vault V4: token engine, grant authority and category API

    A shallow embedding of the vault's TypeScript / JavaScript sources:

    - [src/core/token-engine.ts]   (module [TokenEngine])
    - the SQLite layer [VaultDB]   (module [VaultDB])
    - the MCP server, in its TypeScript source and in its compiled
      JavaScript form            (module [McpServer])
    - the category HTTP API        (module [CategoryApi])

    JavaScript strings are sequences of code units; they are modelled as
    [list ascii].  The token pattern only ever inspects ASCII characters,
    so nothing is lost for the grammar. *)

From Stdlib Require Import String Ascii List Arith Lia ZArith Bool.
From stdpp Require Import base option list gmap strings.
From Equations Require Import Equations.

Set Warnings "-register-all".

Open Scope string_scope.
Open Scope list_scope.

(** ** JavaScript strings *)

Abbreviation jsstring := (list ascii).

(** String literals are read as code-unit lists. *)
Definition str (s : string) : jsstring := list_ascii_of_string s.
Coercion str : string >-> list.

(** [s.startsWith(p)], returning what follows the prefix. *)
Fixpoint strip_prefix (p s : jsstring) : option jsstring :=
  match p with
  | [] => Some s
  | c :: p' =>
      match s with
      | [] => None
      | d :: s' => if Ascii.eqb c d then strip_prefix p' s' else None
      end
  end.

(** [StringIndexOf(s, pat, 0)] presented as the pair (preceding text,
    following text) around the first occurrence of [pat]. *)
Fixpoint split_first (pat s : jsstring) : option (jsstring * jsstring) :=
  match strip_prefix pat s with
  | Some rest => Some ([], rest)
  | None =>
      match s with
      | [] => None
      | c :: s' =>
          match split_first pat s' with
          | Some (before, after) => Some (c :: before, after)
          | None => None
          end
      end
  end.

(** [s.includes(pat)] *)
Definition includes (pat s : jsstring) : bool :=
  match split_first pat s with Some _ => true | None => false end.

(** [s.split(sep)] for a one-character separator. *)
Fixpoint split_on (sep : ascii) (s : jsstring) : list jsstring :=
  match s with
  | [] => [[]]
  | c :: s' =>
      if Ascii.eqb c sep then [] :: split_on sep s'
      else match split_on sep s' with
           | [] => [[c]]
           | w :: ws => (c :: w) :: ws
           end
  end.

(** ** Errors thrown by the sources

    [VaultError(message, code)] from [types/index.ts], the engine's own
    [TypeError] (raised by [ToString] / [ToObject] inside
    [String.prototype.replace]), the constraint error of the SQLite
    binding and the [RangeError] of [Date.prototype.toISOString]. *)

Inductive JsError : Type :=
| VaultError (message code : jsstring)
| TypeError
| SqliteError (code : jsstring)
| RangeError.

Inductive Result (A : Type) : Type :=
| Ok (a : A)
| Throw (e : JsError).
Arguments Ok {A} a.
Arguments Throw {A} e.

#[global] Instance Result_bind : MBind Result := fun A B k m =>
  match m with
  | Ok a => k a
  | Throw e => Throw e
  end.

(** [Promise.all(xs.map(f))] where every [f x] settles without yielding
    before it throws: the first rejection in index order wins. *)
Fixpoint mapR {A B} (f : A -> Result B) (xs : list A) : Result (list B) :=
  match xs with
  | [] => Ok []
  | x :: xs' =>
      y ← f x;
      ys ← mapR f xs';
      Ok (y :: ys)
  end.

Definition credentialNotFound (key : jsstring) : JsError :=
  VaultError (str "Credential not found: " ++ key) (str "CREDENTIAL_NOT_FOUND").

Definition authenticationFailed (msg : jsstring) : JsError :=
  VaultError msg (str "AUTH_FAILED").

(** ** Values

    Credential payloads are what [JSON.parse] returns.  Numbers and arrays
    are left out of the model; every other JSON value is covered. *)

Inductive Json : Type :=
| JNull
| JBool (b : bool)
| JStr (s : jsstring)
| JObj (props : list (jsstring * Json)).

(** Values that reach [String.prototype.replace]: a payload, [undefined],
    or a member inherited from [Object.prototype]. *)
Inductive JsValue : Type :=
| VJson (j : Json)
| VUndefined
| VInherited (name : jsstring).

(** Own property lookup, [Object.hasOwn] / [[[GetOwnProperty]]]. *)
Fixpoint own_property (props : list (jsstring * Json)) (k : jsstring) : option Json :=
  match props with
  | [] => None
  | (k', v) :: rest =>
      if decide (k' = k) then Some v else own_property rest k
  end.

(** The property names of [Object.prototype], which every object created by
    [JSON.parse] or by an object literal inherits. *)
Definition Object_prototype : list jsstring :=
  [ str "constructor"; str "__defineGetter__"; str "__defineSetter__";
    str "hasOwnProperty"; str "__lookupGetter__"; str "__lookupSetter__";
    str "isPrototypeOf"; str "propertyIsEnumerable"; str "toString";
    str "valueOf"; str "__proto__"; str "toLocaleString" ].

Definition inherited (k : jsstring) : bool :=
  bool_decide (k ∈ Object_prototype).

(** [k in obj]: own properties, then the prototype chain. *)
Definition js_in (k : jsstring) (props : list (jsstring * Json)) : bool :=
  match own_property props k with
  | Some _ => true
  | None => inherited k
  end.

(** [obj[k]] *)
Definition js_get (props : list (jsstring * Json)) (k : jsstring) : JsValue :=
  match own_property props k with
  | Some v => VJson v
  | None => if inherited k then VInherited k else VUndefined
  end.

(** [!!v] for a payload. *)
Definition truthy (j : Json) : bool :=
  match j with
  | JNull => false
  | JBool b => b
  | JStr s => match s with [] => false | _ => true end
  | JObj _ => true
  end.

Inductive JsType : Type := TyObject | TyBoolean | TyString.

(** [typeof v] for a payload ([typeof null] is ["object"]). *)
Definition typeof (j : Json) : JsType :=
  match j with
  | JNull => TyObject
  | JBool _ => TyBoolean
  | JStr _ => TyString
  | JObj _ => TyObject
  end.

(** [ToString(v)].  An object converts through its [toString] member; a
    JSON object that shadows it with a (non-callable) own property falls
    through to [valueOf], which never yields a primitive.  Of the inherited
    members only [__proto__] (the object [Object.prototype]) is converted:
    the others are functions, which [replace] calls instead. *)
Definition ToString (v : JsValue) : Result jsstring :=
  match v with
  | VUndefined => Ok (str "undefined")
  | VJson JNull => Ok (str "null")
  | VJson (JBool true) => Ok (str "true")
  | VJson (JBool false) => Ok (str "false")
  | VJson (JStr s) => Ok s
  | VJson (JObj props) =>
      match own_property props (str "toString") with
      | Some _ => Throw TypeError
      | None => Ok (str "[object Object]")
      end
  | VInherited _ => Ok (str "[object Object]")
  end.

(** [IsCallable]: every member of [Object.prototype] is a function except
    the [__proto__] accessor, whose value is [Object.prototype] itself. *)
Definition IsCallable (v : JsValue) : bool :=
  match v with
  | VInherited name => negb (bool_decide (name = str "__proto__"))
  | _ => false
  end.

(** [Call(f, undefined, « searchString, position, string »)] followed by
    [ToString], for the functions of [Object.prototype]. *)
Definition call_replacer (name matched : jsstring) : Result jsstring :=
  if decide (name = str "toString") then Ok (str "[object Undefined]")
  else if decide (name = str "constructor") then Ok matched
  else if decide (name = str "isPrototypeOf") then Ok (str "false")
  else Throw TypeError.

(** [GetSubstitution] for a string pattern: no captures, so only [$$], [$&],
    [$`] and [$'] are special. *)
Fixpoint GetSubstitution (matched preceding following template : jsstring) : jsstring :=
  match template with
  | [] => []
  | c :: t =>
      if Ascii.eqb c "$" then
        match t with
        | d :: t' =>
            if Ascii.eqb d "$" then "$"%char :: GetSubstitution matched preceding following t'
            else if Ascii.eqb d "&" then matched ++ GetSubstitution matched preceding following t'
            else if Ascii.eqb d "`" then preceding ++ GetSubstitution matched preceding following t'
            else if Ascii.eqb d "'" then following ++ GetSubstitution matched preceding following t'
            else c :: GetSubstitution matched preceding following t
        | [] => [c]
        end
      else c :: GetSubstitution matched preceding following t
  end.

(** [s.replace(searchString, replaceValue)] with a string pattern: the first
    occurrence only. *)
Definition js_replace (s searchString : jsstring) (replaceValue : JsValue) : Result jsstring :=
  if IsCallable replaceValue then
    match split_first searchString s with
    | None => Ok s
    | Some (preceding, following) =>
        match replaceValue with
        | VInherited name =>
            replacement ← call_replacer name searchString;
            Ok (preceding ++ replacement ++ following)
        | _ => Ok s
        end
    end
  else
    template ← ToString replaceValue;
    match split_first searchString s with
    | None => Ok s
    | Some (preceding, following) =>
        Ok (preceding ++ GetSubstitution searchString preceding following template ++ following)
    end.

(** ** Token grammar  ([src/core/token-engine.ts])

    [TOKEN_PATTERN] is
    [/\[VAULT:([a-zA-Z0-9_-]+):([a-zA-Z0-9_-]+)(?:\.([a-zA-Z0-9_-]+))?\]/g]. *)

Module TokenEngine.

(** The character class [[a-zA-Z0-9_-]]. *)
Definition name_char (c : ascii) : bool :=
  let n := nat_of_ascii c in
  (((97 <=? n) && (n <=? 122)) || ((65 <=? n) && (n <=? 90))
   || ((48 <=? n) && (n <=? 57)) || (n =? 95) || (n =? 45))%nat.

(** The fragment of regular expressions the pattern is written in, with
    the words each expression matches. *)
Inductive regex : Type :=
| Lit (s : jsstring)
| Class (p : ascii -> bool)
| Cat (r1 r2 : regex)
| Plus (r : regex)
| Opt (r : regex).

Inductive matches : regex -> jsstring -> Prop :=
| matches_lit s : matches (Lit s) s
| matches_class (p : ascii -> bool) c : p c = true -> matches (Class p) [c]
| matches_cat r1 r2 w1 w2 :
    matches r1 w1 -> matches r2 w2 -> matches (Cat r1 r2) (w1 ++ w2)
| matches_plus_one r w : matches r w -> matches (Plus r) w
| matches_plus_more r w1 w2 :
    matches r w1 -> matches (Plus r) w2 -> matches (Plus r) (w1 ++ w2)
| matches_opt_none r : matches (Opt r) []
| matches_opt_some r w : matches r w -> matches (Opt r) w.

Definition NAME : regex := Plus (Class name_char).

Definition TOKEN_PATTERN : regex :=
  Cat (Lit (str "[VAULT:"))
   (Cat NAME
    (Cat (Lit (str ":"))
     (Cat NAME
      (Cat (Opt (Cat (Lit (str ".")) NAME))
           (Lit (str "]")))))).

(** The greedy run [[a-zA-Z0-9_-]*] and what follows it. *)
Fixpoint name_run (s : jsstring) : jsstring * jsstring :=
  match s with
  | c :: s' =>
      if name_char c then let (w, rest) := name_run s' in (c :: w, rest)
      else ([], s)
  | [] => ([], [])
  end.

(** The deterministic part of [VaultToken]; [id] and [createdAt] are drawn
    from the clock and [Math.random], and [accessCount] is always [0]. *)
Record VaultToken : Type := mkToken {
  raw : jsstring;
  namespace : jsstring;
  credential : jsstring;
  field : option jsstring
}.

(** The text of a token with the given components. *)
Definition token_text (ns cred : jsstring) (fld : option jsstring) : jsstring :=
  str "[VAULT:" ++ ns ++ str ":" ++ cred ++
  match fld with Some f => str "." ++ f | None => [] end ++ str "]".

Definition make_token (ns cred : jsstring) (fld : option jsstring) : VaultToken :=
  mkToken (token_text ns cred fld) ns cred fld.

(** One attempt of the pattern at the start of [s]: the token built from
    the capture groups and the text after the match.  Each [+] run is
    followed by a character outside the class, so the greedy run is the
    only one a backtracking matcher can succeed with; that [match_token]
    finds exactly the matches of [TOKEN_PATTERN] is proved below
    ([match_token_iff_pattern]). *)
Definition match_token (s : jsstring) : option (VaultToken * jsstring) :=
  match strip_prefix (str "[VAULT:") s with
  | None => None
  | Some s1 =>
      let (ns, s2) := name_run s1 in
      match ns, s2 with
      | _ :: _, ":"%char :: s3 =>
          let (cred, s4) := name_run s3 in
          match cred, s4 with
          | _ :: _, "]"%char :: s5 => Some (make_token ns cred None, s5)
          | _ :: _, "."%char :: s5 =>
              let (fld, s6) := name_run s5 in
              match fld, s6 with
              | _ :: _, "]"%char :: s7 => Some (make_token ns cred (Some fld), s7)
              | _, _ => None
              end
          | _, _ => None
          end
      | _, _ => None
      end
  end.

Lemma strip_prefix_length (p s r : jsstring) :
  strip_prefix p s = Some r -> length s = length p + length r.
Proof.
  revert s; induction p as [|c p IH]; intros s H; simpl in *.
  - injection H as ->; reflexivity.
  - destruct s as [|d s]; [congruence|].
    destruct (Ascii.eqb c d); [|congruence].
    simpl; rewrite (IH _ H); reflexivity.
Qed.

Lemma name_run_length (s : jsstring) :
  length s = length (fst (name_run s)) + length (snd (name_run s)).
Proof.
  induction s as [|c s IH]; simpl; [reflexivity|].
  destruct (name_char c); [|reflexivity].
  destruct (name_run s); simpl in *; lia.
Qed.

(** Case analysis on a character that a [match] inspects. *)
Ltac split_char c :=
  destruct c as [[] [] [] [] [] [] [] []]; try congruence.

Lemma match_token_shorter (s : jsstring) (t : VaultToken) (rest : jsstring) :
  match_token s = Some (t, rest) -> length rest < length s.
Proof.
  unfold match_token.
  destruct (strip_prefix (str "[VAULT:") s) as [s1|] eqn:E1; [|congruence].
  apply strip_prefix_length in E1.
  pose proof (name_run_length s1) as L1.
  destruct (name_run s1) as [ns s2]; simpl in L1.
  destruct ns as [|n ns]; [congruence|].
  destruct s2 as [|c2 s3]; [congruence|].
  split_char c2.
  pose proof (name_run_length s3) as L3.
  destruct (name_run s3) as [cred s4]; simpl in L3.
  destruct cred as [|k cred]; [congruence|].
  destruct s4 as [|c4 s5]; [congruence|].
  simpl in *.
  split_char c4.
  - intros [= <- <-]. lia.
  - pose proof (name_run_length s5) as L5.
    destruct (name_run s5) as [fld s6]; simpl in L5.
    destruct fld as [|f fld]; [congruence|].
    destruct s6 as [|c6 s7]; [congruence|].
    split_char c6.
    intros [= <- <-]. simpl in *. lia.
Defined.

(** Keeps the equation of a scrutinee for the termination argument. *)
Definition inspect {A : Type} (x : A) : {y : A | x = y} := exist _ x eq_refl.

(** [text.matchAll(TOKEN_PATTERN)]: leftmost match, then resume after it. *)
Equations? matchAll (s : jsstring) : list VaultToken by wf (length s) lt :=
matchAll s with inspect (match_token s) := {
  | exist _ (Some (t, rest)) E => t :: matchAll rest
  | exist _ None _ with s => {
      | [] => []
      | _ :: s' => matchAll s' } }.
Proof.
  eapply match_token_shorter; eassumption.
Defined.

(** [extractTokens(text)] *)
Definition extractTokens (text : jsstring) : list VaultToken := matchAll text.

(** [validateTokenFormat(token)]: [pattern.test] with a non-global pattern
    looks for a match starting at any index. *)
Fixpoint validateTokenFormat (token : jsstring) : bool :=
  match match_token token with
  | Some _ => true
  | None =>
      match token with
      | [] => false
      | _ :: rest => validateTokenFormat rest
      end
  end.

(** [parseToken(token)]: [String.prototype.match] with a non-global
    pattern returns the leftmost match. *)
Fixpoint parseToken (token : jsstring) : option VaultToken :=
  match match_token token with
  | Some (t, _) => Some t
  | None =>
      match token with
      | [] => None
      | _ :: rest => parseToken rest
      end
  end.

(** [`${token.namespace}:${token.credential}`] *)
Definition credential_key (ns cred : jsstring) : jsstring :=
  ns ++ str ":" ++ cred.

Definition fieldNotFound (fld key : jsstring) : JsError :=
  VaultError (str "Field '" ++ fld ++ str "' not found in credential '" ++ key ++ str "'")
             (str "FIELD_NOT_FOUND").

(** [resolveToken(token, credentials, context)].  The audit line it prints
    to the console carries no data the result depends on and is left out. *)
Definition resolveToken (token : VaultToken) (credentials : gmap jsstring Json)
  : Result (jsstring * JsValue) :=
  let key := credential_key (namespace token) (credential token) in
  match credentials !! key with
  | None => Throw (credentialNotFound key)
  | Some cred =>
      if negb (truthy cred) then Throw (credentialNotFound key)
      else
        match field token with
        | Some ((_ :: _) as fld) =>
            match cred with
            | JObj props =>
                if js_in fld props then Ok (raw token, js_get props fld)
                else Throw (fieldNotFound fld key)
            | _ => Throw (fieldNotFound fld key)
            end
        | _ =>
            match cred with
            | JStr s => Ok (raw token, VJson (JStr s))
            | JObj props => Ok (raw token, js_get props (str "value"))
            | _ => Ok (raw token, VUndefined)
            end
        end
  end.

(** The loop [for (const [token, value] of substitutions)
    result = result.replace(token, value)]. *)
Fixpoint apply_substitutions (result : jsstring) (substitutions : list (jsstring * JsValue))
  : Result jsstring :=
  match substitutions with
  | [] => Ok result
  | (token, value) :: rest =>
      result' ← js_replace result token value;
      apply_substitutions result' rest
  end.

(** [substituteTokens(text, credentials, context)], the [text] member of
    its result; the elapsed time is not modelled. *)
Definition substituteTokens (text : jsstring) (credentials : gmap jsstring Json)
  : Result jsstring :=
  let tokens := extractTokens text in
  substitutions ← mapR (fun token => resolveToken token credentials) tokens;
  apply_substitutions text substitutions.

End TokenEngine.

(** ** Records shared by the servers  ([types/index.ts]) *)

(** Timestamps are milliseconds since the epoch, as [Date.now()] gives
    them; the sources store their ISO rendering. *)
Definition timestamp : Type := Z.
Bind Scope Z_scope with timestamp.

(** The largest time value of a [Date], in either direction. *)
Definition MAX_TIME : Z := 8640000000000000.

(** [new Date(t).toISOString()]: the time stamp, or a [RangeError] when
    [t] is outside the range of [Date]. *)
Definition toISOString (t : Z) : Result timestamp :=
  if (Z.abs t <=? MAX_TIME)%Z then Ok t else Throw RangeError.

(** [Credential].  [encryptedData] holds [JSON.stringify(data)] and is only
    ever read back through [JSON.parse]; the field carries the JSON value
    the stored text denotes. *)
Record Credential : Type := mkCredential {
  cred_id : jsstring;
  cred_namespace : jsstring;
  cred_name : jsstring;
  cred_type : jsstring;
  cred_description : jsstring;
  sensitivityLevel : jsstring;
  encryptedData : Json;
  encryptionKeyId : jsstring;
  createdAt : timestamp;
  updatedAt : timestamp
}.

(** [AccessGrant] *)
Record AccessGrant : Type := mkGrant {
  grant_id : jsstring;
  credentialId : jsstring;
  agentId : jsstring;
  purpose : jsstring;
  grantedAt : timestamp;
  expiresAt : option timestamp;
  usesRemaining : option Z;
  isActive : bool
}.

(** ** The SQLite layer  ([VaultDB]) *)

Module VaultDB.

(** A row of [access_grants]. *)
Record GrantRow : Type := mkGrantRow {
  row_id : jsstring;
  credential_id : jsstring;
  agent_id : jsstring;
  uses_remaining : option Z;
  is_active : Z;
  created_at : timestamp
}.

(** The two tables.  [credentials] has [id] as primary key and
    [UNIQUE(namespace, name)]; [access_grants] has [id] as primary key. *)
Record t : Type := mkDB {
  credentials : list Credential;
  access_grants : list GrantRow
}.

Definition empty : t := mkDB [] [].

Definition conflicts (c row : Credential) : bool :=
  bool_decide (cred_id row = cred_id c)
  || (bool_decide (cred_namespace row = cred_namespace c)
      && bool_decide (cred_name row = cred_name c)).

(** The table [INSERT OR REPLACE] writes: the rows the new one conflicts
    with are removed, then the new row is inserted. *)
Definition replace_credential (db : t) (c : Credential) : t :=
  mkDB (List.filter (fun row => negb (conflicts c row)) (credentials db) ++ [c])
       (access_grants db).

(** [FOREIGN KEY (credential_id) REFERENCES credentials(id)]: the
    replacement would remove a row under another id than the new one
    (a conflict on the unique key only) that a grant row refers to. *)
Definition orphans_grant (db : t) (c : Credential) : bool :=
  existsb
    (fun grant_row =>
       existsb (fun row => conflicts c row
                           && negb (bool_decide (cred_id row = cred_id c))
                           && bool_decide (credential_id grant_row = cred_id row))
               (credentials db))
    (access_grants db).

(** [addCredential(credential)]: the [INSERT OR REPLACE], refused as a
    whole when it would leave a grant row without its credential. *)
Definition addCredential (db : t) (c : Credential) : Result t :=
  if orphans_grant db c
  then Throw (SqliteError (str "SQLITE_CONSTRAINT_FOREIGNKEY"))
  else Ok (replace_credential db c).

(** The database after a statement: a statement that throws changes
    nothing. *)
Definition after (db : t) (r : Result t) : t :=
  match r with
  | Ok db' => db'
  | Throw _ => db
  end.

(** [getCredential(namespace, name)] *)
Definition getCredential (db : t) (namespace name : jsstring) : option Credential :=
  List.find (fun row => bool_decide (cred_namespace row = namespace)
                        && bool_decide (cred_name row = name))
            (credentials db).

(** [listCredentials(namespace)]; an absent or empty [namespace] lists
    every row. *)
Definition listCredentials (db : t) (namespace : option jsstring) : list Credential :=
  match namespace with
  | Some ((_ :: _) as ns) =>
      List.filter (fun row => bool_decide (cred_namespace row = ns)) (credentials db)
  | _ => credentials db
  end.

(** [createGrant(grant)]: a plain [INSERT], refused when the id is taken
    and, after that, when [credential_id] is not the id of a credential;
    [expiresAt] has no column. *)
Definition createGrant (db : t) (grant : AccessGrant) (now : timestamp) : Result t :=
  if existsb (fun row => bool_decide (row_id row = grant_id grant)) (access_grants db)
  then Throw (SqliteError (str "SQLITE_CONSTRAINT_PRIMARYKEY"))
  else if negb (existsb (fun row => bool_decide (cred_id row = credentialId grant))
                        (credentials db))
  then Throw (SqliteError (str "SQLITE_CONSTRAINT_FOREIGNKEY"))
  else Ok (mkDB (credentials db)
                (access_grants db ++
                 [mkGrantRow (grant_id grant) (credentialId grant) (agentId grant)
                             (usesRemaining grant)
                             (if isActive grant then 1 else 0)%Z now])).

(** [hasAccess(agentId, credentialId)]: a [SELECT COUNT( * )]; the database
    it leaves behind is returned with the answer. *)
Definition hasAccess (db : t) (agentId credentialId : jsstring) : bool * t :=
  let count :=
    length (List.filter
              (fun row => bool_decide (agent_id row = agentId)
                          && bool_decide (credential_id row = credentialId)
                          && (is_active row =? 1)%Z)
              (access_grants db)) in
  ((0 <? count)%nat, db).

(** The test of [WHERE namespace = ? AND name = ?]. *)
Definition same_key (namespace name : jsstring) (row : Credential) : bool :=
  bool_decide (cred_namespace row = namespace) && bool_decide (cred_name row = name).

(** The key of [UNIQUE(namespace, name)]. *)
Definition row_key (c : Credential) : jsstring * jsstring :=
  (cred_namespace c, cred_name c).

(** The constraints the schema declares: the primary key and the unique
    key of [credentials], the primary key of [access_grants]. *)
Definition constraints (db : t) : Prop :=
  NoDup (cred_id <$> credentials db) /\
  NoDup (row_key <$> credentials db) /\
  NoDup (row_id <$> access_grants db).

(** The constraints together with the foreign key of [access_grants]:
    every grant row refers to the id of a credential. *)
Definition consistent (db : t) : Prop :=
  constraints db /\
  Forall (fun grant_row => credential_id grant_row ∈ (cred_id <$> credentials db))
         (access_grants db).

(** An active row of [access_grants] for the agent and the credential. *)
Definition active_grant (agentId credentialId : jsstring) (row : GrantRow) : Prop :=
  agent_id row = agentId /\ credential_id row = credentialId /\ is_active row = 1%Z.

End VaultDB.

(** ** The MCP server  ([servers/mcp-server]) *)

Module McpServer.
Import TokenEngine.

(** The part of [handleTokenSubstitution] that the TypeScript source and
    the compiled JavaScript share: they differ in [this.hasAccess] and in
    where a token's credential record is read from. *)
Section Handler.

Variable hasAccess : jsstring -> jsstring -> bool.
Variable lookupCredential : VaultToken -> option Credential.

(** [for (const token of tokens) if (!this.hasAccess(agent_id, key)) throw ...] *)
Fixpoint check_tokens (agent_id : jsstring) (tokens : list VaultToken) : Result unit :=
  match tokens with
  | [] => Ok tt
  | token :: rest =>
      let credentialKey := credential_key (namespace token) (credential token) in
      if negb (hasAccess agent_id credentialKey)
      then Throw (authenticationFailed (str "No access to " ++ credentialKey))
      else check_tokens agent_id rest
  end.

(** The access check refuses the token's credential to the agent. *)
Definition denied (agent_id : jsstring) (t : VaultToken) : Prop :=
  hasAccess agent_id (credential_key (namespace t) (credential t)) = false.

(** The error the loop throws for a refused token. *)
Definition refusal (t : VaultToken) : JsError :=
  authenticationFailed
    (str "No access to " ++ credential_key (namespace t) (credential t)).

(** The loop that fills [credentialsMap]. *)
Fixpoint build_credentials_map (tokens : list VaultToken) (credentialsMap : gmap jsstring Json)
  : gmap jsstring Json :=
  match tokens with
  | [] => credentialsMap
  | token :: rest =>
      let credentialKey := credential_key (namespace token) (credential token) in
      match lookupCredential token with
      | Some credential =>
          build_credentials_map rest (<[credentialKey := encryptedData credential]> credentialsMap)
      | None => build_credentials_map rest credentialsMap
      end
  end.

(** [handleTokenSubstitution(args)], the text of its reply. *)
Definition handleTokenSubstitution_with (text agent_id : jsstring) : Result jsstring :=
  let tokens := extractTokens text in
  match tokens with
  | [] => Ok text
  | _ :: _ =>
      _ ← check_tokens agent_id tokens;
      let credentialsMap := build_credentials_map tokens ∅ in
      substituteTokens text credentialsMap
  end.

End Handler.

(** *** The TypeScript source: in-memory maps *)

Record state : Type := mkState {
  credentials : gmap jsstring Credential;
  grants : gmap jsstring AccessGrant
}.

(** [hasAccess(agentId, credentialKey)]:
    [return true; // For now, allow all access] *)
Definition hasAccess_ts (st : state) (agentId credentialKey : jsstring) : bool := true.

Definition handleTokenSubstitution_ts (st : state) (text agent_id : jsstring) : Result jsstring :=
  handleTokenSubstitution_with
    (hasAccess_ts st)
    (fun token => credentials st !! credential_key (namespace token) (credential token))
    text agent_id.

(** [handleAddCredential(args)]; [id] and [now] stand for [generateId()]
    and the clock. *)
Definition handleAddCredential_ts (st : state) (id : jsstring) (now : timestamp)
    (namespace name : jsstring) (data : Json) (description sensitivity : jsstring) : state :=
  let credential :=
    mkCredential id namespace name
      (match typeof data with TyObject => str "structured" | _ => str "simple" end)
      description sensitivity data (str "default") now now in
  mkState (<[credential_key namespace name := credential]> (credentials st)) (grants st).

(** [handleGrantAccess(args)]; [ids] stands for the successive results of
    [generateId()].  [duration_minutes] and [max_uses] default to 30 and 0
    and are whole numbers here.  The clock reads [now] in every round, so
    a round throws only if the first one does, before anything is stored. *)
Fixpoint handleGrantAccess_ts (st : state) (ids credential_ids : list jsstring)
    (agent_id : jsstring) (duration_minutes max_uses : Z) (purpose : jsstring)
    (now : timestamp) : Result state :=
  match credential_ids, ids with
  | credId :: rest, id :: ids' =>
      grantedAt ← toISOString now;
      expiresAt ← (if (0 <? duration_minutes)%Z
                   then t ← toISOString (now + duration_minutes * 60 * 1000)%Z; Ok (Some t)
                   else Ok None);
      let grant :=
        mkGrant id credId agent_id purpose grantedAt expiresAt
          (if (0 <? max_uses)%Z then Some max_uses else None)
          true in
      handleGrantAccess_ts (mkState (credentials st) (<[id := grant]> (grants st)))
                           ids' rest agent_id duration_minutes max_uses purpose now
  | _, _ => Ok st
  end.

(** *** The compiled JavaScript: backed by [VaultDB] *)

(** [hasAccess(agentId, credentialKey)].  The handler only passes keys of
    the form [namespace:name]; a key without a colon finds no credential. *)
Definition hasAccess_js (db : VaultDB.t) (agentId credentialKey : jsstring) : bool :=
  match split_on ":" credentialKey with
  | namespace :: name :: _ =>
      match VaultDB.getCredential db namespace name with
      | None => false
      | Some credential =>
          match cred_id credential with
          | [] => false
          | _ :: _ => fst (VaultDB.hasAccess db agentId (cred_id credential))
          end
      end
  | _ => false
  end.

Definition handleTokenSubstitution_js (db : VaultDB.t) (text agent_id : jsstring) : Result jsstring :=
  handleTokenSubstitution_with
    (hasAccess_js db)
    (fun token => VaultDB.getCredential db (namespace token) (credential token))
    text agent_id.

(** [handleAddCredential(args)] of the compiled server. *)
Definition handleAddCredential_js (db : VaultDB.t) (id : jsstring) (now : timestamp)
    (namespace name : jsstring) (data : Json) (description sensitivity : jsstring)
  : Result VaultDB.t :=
  let credential :=
    mkCredential id namespace name
      (match typeof data with TyObject => str "structured" | _ => str "simple" end)
      description sensitivity data (str "default") now now in
  VaultDB.addCredential db credential.

(** An element of the array [handleListCredentials] serialises. *)
Record ListedCredential : Type := mkListed {
  listed_namespace : jsstring;
  listed_name : jsstring;
  listed_description : jsstring;
  listed_token : jsstring;
  listed_hasAccess : bool
}.

(** [handleListCredentials(args)] of the compiled server, before
    [JSON.stringify]. *)
Definition handleListCredentials_js (db : VaultDB.t) (namespace agent_id : option jsstring)
  : list ListedCredential :=
  map (fun cred =>
         mkListed (cred_namespace cred) (cred_name cred) (cred_description cred)
           (str "[VAULT:" ++ cred_namespace cred ++ str ":" ++ cred_name cred ++ str "]")
           (match agent_id with
            | Some ((_ :: _) as agent) => fst (VaultDB.hasAccess db agent (cred_id cred))
            | _ => false
            end))
      (VaultDB.listCredentials db namespace).

End McpServer.

(** ** The category HTTP API

    [piiSchema] is read from [config/pii-schema.json], which is
    configuration: the handlers take it as an argument.  The audit lines
    the handlers append are not part of any reply and are left out. *)

Module CategoryApi.

Record Category : Type := mkCategory {
  id : jsstring;
  name : jsstring;
  description : jsstring;
  pattern : jsstring;
  patternDescription : jsstring;
  sensitivityLevel : jsstring;
  maskFormat : jsstring;
  examples : list jsstring;
  fieldTypes : list jsstring;
  auditRequired : bool;
  allowExport : option bool
}.

Record Schema : Type := mkSchema { categories : list Category }.

(** The projection [GET /api/categories] sends for each category. *)
Record CategorySummary : Type := mkSummary {
  sum_id : jsstring;
  sum_name : jsstring;
  sum_description : jsstring;
  sum_sensitivityLevel : jsstring;
  sum_patternDescription : jsstring;
  sum_fieldTypes : list jsstring
}.

(** The JSON bodies the handlers pass to [res.json]. *)
Inductive Body : Type :=
| ErrorBody (error : jsstring)
| SchemaBody (schema : Schema)
| CategoriesBody (cats : list CategorySummary)
| CategoryBody (category : Category)
| ValidateBody (valid : bool) (category sensitivity mask : jsstring)
| AddFailedBody (error : jsstring) (category : Category)
| AddedBody (token category sensitivity message : jsstring)
| ExportBlockedBody (error : jsstring) (blockedCategories : list jsstring)
| ExportedBody (itemCount : nat) (time : timestamp) (warning : jsstring).

Record Response : Type := mkResponse { status : Z; body : Body }.

(** The values of every [pattern] member in the serialised body: a whole
    [Category] object is serialised with all of its members. *)
Definition exposed_patterns (b : Body) : list jsstring :=
  match b with
  | SchemaBody schema => map pattern (categories schema)
  | CategoryBody category => [pattern category]
  | AddFailedBody _ category => [pattern category]
  | _ => []
  end.

(** [piiSchema?.categories.find((c) => c.id === wanted)] *)
Definition find_category (piiSchema : option Schema) (wanted : jsstring) : option Category :=
  match piiSchema with
  | None => None
  | Some schema => List.find (fun c => bool_decide (id c = wanted)) (categories schema)
  end.

Section Handlers.

(** [new RegExp(pattern).test(value)], [false] when the pattern does not
    compile. *)
Variable regex_test : jsstring -> jsstring -> bool.

Variable piiSchema : option Schema.

(** [validatePattern(value, categoryId)] *)
Definition validatePattern (value categoryId : jsstring) : bool :=
  match find_category piiSchema categoryId with
  | None => false
  | Some category => regex_test (pattern category) value
  end.

(** [GET /api/schema] *)
Definition get_schema : Response :=
  match piiSchema with
  | None => mkResponse 500 (ErrorBody (str "Schema not loaded"))
  | Some schema => mkResponse 200 (SchemaBody schema)
  end.

(** [GET /api/categories] *)
Definition get_categories : Response :=
  match piiSchema with
  | None => mkResponse 500 (ErrorBody (str "Schema not loaded"))
  | Some schema =>
      mkResponse 200
        (CategoriesBody
           (map (fun cat => mkSummary (id cat) (name cat) (description cat)
                                      (sensitivityLevel cat) (patternDescription cat)
                                      (fieldTypes cat))
                (categories schema)))
  end.

(** [GET /api/category/:id] *)
Definition get_category (wanted : jsstring) : Response :=
  match piiSchema with
  | None => mkResponse 500 (ErrorBody (str "Schema not loaded"))
  | Some _ =>
      match find_category piiSchema wanted with
      | None => mkResponse 404 (ErrorBody (str "Category not found"))
      | Some category => mkResponse 200 (CategoryBody category)
      end
  end.

Definition is_empty (s : jsstring) : bool :=
  match s with [] => true | _ => false end.

(** [POST /api/vault-item/add]; an absent request member is the empty
    string, which the handler rejects alike. *)
Definition post_vault_item_add (namespace name categoryId value : jsstring) : Response :=
  if is_empty namespace || is_empty name || is_empty categoryId || is_empty value
  then mkResponse 400 (ErrorBody (str "Missing required fields"))
  else
    match find_category piiSchema categoryId with
    | None => mkResponse 404 (ErrorBody (str "Category not found"))
    | Some category =>
        if negb (validatePattern value categoryId) then
          mkResponse 400
            (AddFailedBody
               (str "Value does not match " ++ CategoryApi.name category ++
                str " pattern: " ++ patternDescription category)
               category)
        else
          mkResponse 200
            (AddedBody (str "[VAULT:" ++ namespace ++ str ":" ++ name ++ str "]")
                       categoryId (sensitivityLevel category)
                       (str "Added " ++ CategoryApi.name category ++ str " to vault"))
    end.

(** An item of an export request; only [categoryId] is read. *)
Record Item : Type := mkItem { categoryId : option jsstring }.

(** The callback of [items?.some(...)]. *)
Definition is_critical (item : Item) : bool :=
  match categoryId item with
  | None => false
  | Some wanted =>
      match find_category piiSchema wanted with
      | None => false
      | Some category =>
          match allowExport category with
          | Some false => bool_decide (sensitivityLevel category = str "critical")
          | _ => false
          end
      end
  end.

(** In the words of the specification: the category identifiers of the
    items of the batch that block the export. *)
Definition blocking_categories (items : list Item) : list jsstring :=
  omap categoryId (List.filter is_critical items).

(** The list the handler sends with a refusal. *)
Definition blockedCategories : list jsstring :=
  [ str "ssn"; str "credit_card"; str "api_key"; str "private_key";
    str "database_password" ].

(** [POST /api/vault/export]; [items] is [None] when the request has no
    such member. *)
Definition post_vault_export (items : option (list Item)) (now : timestamp) : Response :=
  let hasCritical :=
    match items with
    | None => false
    | Some l => existsb is_critical l
    end in
  if hasCritical then
    mkResponse 403
      (ExportBlockedBody
         (str "Cannot export vault containing critical PII (SSN, credit card, API keys, private keys)")
         blockedCategories)
  else
    mkResponse 200
      (ExportedBody (match items with Some l => length l | None => 0 end) now
         (str "Never share exported vault data. Contains sensitive credentials.")).

End Handlers.

Section MoreHandlers.

Variable regex_test : jsstring -> jsstring -> bool.
Variable piiSchema : option Schema.

(** [maskValue(value, categoryId)] *)
Definition maskValue (value categoryId : jsstring) : jsstring :=
  match find_category piiSchema categoryId with
  | None => str "***"
  | Some category => maskFormat category
  end.

(** [POST /api/validate] *)
Definition post_validate (value categoryId : jsstring) : Response :=
  if is_empty value || is_empty categoryId
  then mkResponse 400 (ErrorBody (str "Missing value or categoryId"))
  else
    match find_category piiSchema categoryId with
    | None => mkResponse 404 (ErrorBody (str "Category not found"))
    | Some category =>
        mkResponse 200
          (ValidateBody (validatePattern regex_test piiSchema value categoryId)
                        categoryId (sensitivityLevel category) (maskFormat category))
    end.

End MoreHandlers.

(** [GET /api/audit-log]: [total] and [entries] of the reply.  The log
    file is the list of the entries appended so far, oldest first; [None]
    is the file that does not exist yet. *)
Definition get_audit_log {Entry : Type} (log : option (list Entry)) : nat * list Entry :=
  match log with
  | None => (0, [])
  | Some lines =>
      let entries := take 100 (rev lines) in
      (length entries, entries)
  end.

End CategoryApi.

(** ** The token syntax in the words of the specification *)

Module TokenGrammar.
Import TokenEngine.

(** The spec's [[A-Za-z0-9_-]+]: a non-empty word over the name alphabet. *)
Definition name_string (w : jsstring) : Prop :=
  w <> [] /\ Forall (fun c => name_char c = true) w.

Definition optional_name (fld : option jsstring) : Prop :=
  match fld with Some f => name_string f | None => True end.

(** The spec's token syntax:
    [[VAULT:] + namespace + [:] + credential + ([.] + field)? + []]]. *)
Definition well_formed_token (w : jsstring) : Prop :=
  exists ns cred fld,
    name_string ns /\ name_string cred /\ optional_name fld /\
    w = token_text ns cred fld.

(** The string holds a well-formed token somewhere. *)
Definition contains_token (s : jsstring) : Prop :=
  exists pre w post, s = pre ++ w ++ post /\ well_formed_token w.

(** What follows a greedy run does not continue it. *)
Definition stops (rest : jsstring) : Prop :=
  match rest with
  | [] => True
  | c :: _ => name_char c = false
  end.

(** A text in which every [[] opens a well-formed token: plain stretches
    free of [[], and tokens. *)
Inductive segment : Type :=
| Gap (g : jsstring)
| Tok (ns cred : jsstring) (fld : option jsstring).

Definition wf_segment (seg : segment) : Prop :=
  match seg with
  | Gap g => "["%char ∉ g
  | Tok ns cred fld => name_string ns /\ name_string cred /\ optional_name fld
  end.

(** The text the segments spell. *)
Fixpoint source (segs : list segment) : jsstring :=
  match segs with
  | [] => []
  | Gap g :: rest => g ++ source rest
  | Tok ns cred fld :: rest => token_text ns cred fld ++ source rest
  end.

(** Its tokens, in order. *)
Fixpoint tokens_of (segs : list segment) : list VaultToken :=
  match segs with
  | [] => []
  | Gap _ :: rest => tokens_of rest
  | Tok ns cred fld :: rest => make_token ns cred fld :: tokens_of rest
  end.

(** The text with every token replaced by [value] of it. *)
Fixpoint rendered (value : VaultToken -> jsstring) (segs : list segment) : jsstring :=
  match segs with
  | [] => []
  | Gap g :: rest => g ++ rendered value rest
  | Tok ns cred fld :: rest => value (make_token ns cred fld) ++ rendered value rest
  end.

(** A replacement text that [replace] inserts as it stands and that cannot
    be mistaken for the start of a token. *)
Definition plain_text (r : jsstring) : Prop :=
  ("["%char ∉ r) /\ ("$"%char ∉ r).

(** What [substituteTokens] writes in place of a token: the template
    [replace] derives from the resolved value, when the token resolves to
    a value that is not a function. *)
Definition replacement (credentials : gmap jsstring Json) (token : VaultToken)
  : option jsstring :=
  match resolveToken token credentials with
  | Ok (_, value) =>
      if IsCallable value then None
      else match ToString value with
           | Ok template => Some template
           | Throw _ => None
           end
  | Throw _ => None
  end.

Definition replacement_text (credentials : gmap jsstring Json) (token : VaultToken)
  : jsstring :=
  default [] (replacement credentials token).

(** The pair [resolveToken] hands to the substitution loop. *)
Definition resolved (creds : gmap jsstring Json) (t : VaultToken) : jsstring * JsValue :=
  match resolveToken t creds with
  | Ok p => p
  | Throw _ => (raw t, VUndefined)
  end.

(** The string a token resolves to, when it resolves to a string. *)
Definition resolved_string (credentials : gmap jsstring Json) (token : VaultToken)
  : option jsstring :=
  match resolveToken token credentials with
  | Ok (_, VJson (JStr v)) => Some v
  | _ => None
  end.

(** The credential of a token is missing from the map, or stored with a
    value JavaScript counts as false (the empty string, [null], [false]). *)
Definition unavailable (creds : gmap jsstring Json) (t : VaultToken) : Prop :=
  match creds !! credential_key (namespace t) (credential t) with
  | None => True
  | Some cred => truthy cred = false
  end.

(** The credentials of the table are named over the token alphabet and
    carry an id. *)
Definition well_named (db : VaultDB.t) : Prop :=
  forall c, c ∈ VaultDB.credentials db ->
    name_string (cred_namespace c) /\ name_string (cred_name c) /\ cred_id c <> [].

End TokenGrammar.

(** ** Concrete inputs used below *)

Module Examples.
Import TokenEngine TokenGrammar.

(** The credentials of the specification's example. *)
Definition chase_credentials : gmap jsstring Json :=
  {[ str "personal:chase_login" :=
       JObj [ (str "username", JStr (str "m@x.com"));
              (str "password", JStr (str "p1")) ] ]}.

Definition chase_segments : list segment :=
  [ Tok (str "personal") (str "chase_login") (Some (str "username"));
    Gap (str " / ");
    Tok (str "personal") (str "chase_login") (Some (str "password")) ].

(** A vault with one secret and no grant at all. *)
Definition api_key_credential : Credential :=
  mkCredential (str "cred_1") (str "personal") (str "api_key") (str "simple")
               [] (str "high") (JStr (str "sk-live-123")) (str "default") 0%Z 0%Z.

Definition schwab_credential : Credential :=
  mkCredential (str "cred_2") (str "finance") (str "schwab_api") (str "simple")
               [] (str "high") (JStr (str "schwab-456")) (str "default") 0%Z 0%Z.

Definition ungranted_state : McpServer.state :=
  McpServer.mkState {[ str "personal:api_key" := api_key_credential ]} ∅.

Definition ungranted_db : VaultDB.t :=
  VaultDB.mkDB [ api_key_credential ] [].

(** A grant for the agent [grant] on [cred_1], limited to one use. *)
Definition single_use_grant : AccessGrant :=
  mkGrant (str "g1") (str "cred_1") (str "grant") (str "Banking workflow")
          0%Z None (Some 1%Z) true.

(** The grant [handleGrantAccess] builds at time [0] for 30 minutes. *)
Definition half_hour_grant : AccessGrant :=
  mkGrant (str "g2") (str "personal:api_key") (str "grant") (str "Banking workflow")
          0 (Some 1800000%Z) None true.

(** A new value for [personal:api_key] under its id. *)
Definition rotated_credential : Credential :=
  mkCredential (str "cred_1") (str "personal") (str "api_key") (str "simple")
               [] (str "high") (JStr (str "rotated")) (str "default") 9%Z 9%Z.

(** Another credential stored under the id of [personal:api_key]. *)
Definition aws_credential : Credential :=
  mkCredential (str "cred_1") (str "business") (str "aws") (str "simple")
               [] (str "high") (JStr (str "AKIA")) (str "default") 9%Z 9%Z.

(** The same grant on the credential's id, as the database stores it. *)
Definition half_hour_db_grant : AccessGrant :=
  mkGrant (str "g2") (str "cred_1") (str "grant") (str "Banking workflow")
          0 (Some 1800000%Z) None true.

(** The database with both credentials, [grant] holding a grant on the
    first one only. *)
Definition granted_db : VaultDB.t :=
  VaultDB.mkDB [ api_key_credential; schwab_credential ]
               [ VaultDB.mkGrantRow (str "g1") (str "cred_1") (str "grant") None 1%Z 0%Z ].

(** Categories as the documentation of [config/pii-schema.json] gives
    them. *)
Definition ssn_category : CategoryApi.Category :=
  CategoryApi.mkCategory
    (str "ssn") (str "Social Security Number")
    (str "US Social Security Number (XXX-XX-XXXX)")
    (str "^\d{3}-\d{2}-\d{4}$")
    (str "3-digit-2-digit-4-digit (e.g., 123-45-6789)")
    (str "critical") (str "XXX-XX-****") [ str "123-45-6789" ]
    [ str "ssn"; str "social_security_number"; str "tax_id" ] true (Some false).

Definition passport_category : CategoryApi.Category :=
  CategoryApi.mkCategory
    (str "passport") (str "Passport") (str "International passport ID")
    (str "^[A-Z]{2}\d{6}$") (str "2 letters and 6 digits (e.g., AB123456)")
    (str "critical") (str "**######") [ str "AB123456" ] [ str "passport" ]
    true (Some false).

Definition email_category : CategoryApi.Category :=
  CategoryApi.mkCategory
    (str "email") (str "Email") (str "Email address")
    (str "^[^@\s]+@[^@\s]+$") (str "name@domain (e.g., user@example.com)")
    (str "medium") (str "***@***") [ str "user@example.com" ] [ str "email" ]
    false (Some true).

Definition documented_schema : CategoryApi.Schema :=
  CategoryApi.mkSchema [ ssn_category; passport_category; email_category ].

(** A category that is not exportable without being critical. *)
Definition routing_category : CategoryApi.Category :=
  CategoryApi.mkCategory
    (str "routing_number") (str "Routing Number") (str "ABA/Transit number")
    (str "^\d{9}$") (str "9 digits (e.g., 021000021)")
    (str "high") (str "*****####") [ str "021000021" ] [ str "routing_number" ]
    true (Some false).

Definition extended_schema : CategoryApi.Schema :=
  CategoryApi.mkSchema [ ssn_category; routing_category; email_category ].

(** A stand-in for the regular-expression engine that knows the
    documented example of the [ssn] pattern. *)
Definition documented_regex_test (pattern value : jsstring) : bool :=
  bool_decide (pattern = str "^\d{3}-\d{2}-\d{4}$") && bool_decide (value = str "123-45-6789").

Definition item_of (categoryId : string) : CategoryApi.Item :=
  CategoryApi.mkItem (Some (str categoryId)).

End Examples.

(** Closed, decidable side conditions are settled by evaluation. *)
Ltac by_evaluation :=
  apply (bool_decide_unpack _); vm_compute; exact I.

Ltac closed_conditions :=
  repeat first [ by_evaluation | discriminate | split
               | apply Forall_nil_2 | apply Forall_cons_2
               | progress cbn [TokenGrammar.wf_segment TokenGrammar.optional_name] ].

(** * Properties *)

(** ** Strings *)

Lemma strip_prefix_app (p s : jsstring) : strip_prefix p (p ++ s) = Some s.
Proof.
  induction p as [|c p IH]; simpl; [reflexivity|].
  rewrite Ascii.eqb_refl; exact IH.
Qed.

Lemma strip_prefix_sound (p s r : jsstring) :
  strip_prefix p s = Some r -> s = p ++ r.
Proof.
  revert s; induction p as [|c p IH]; intros s H; simpl in *.
  - congruence.
  - destruct s as [|d s]; [congruence|].
    destruct (Ascii.eqb_spec c d) as [->|]; [|congruence].
    rewrite (IH _ H); reflexivity.
Qed.

Lemma strip_prefix_head (c d : ascii) (p s : jsstring) :
  c <> d -> strip_prefix (c :: p) (d :: s) = None.
Proof.
  intros N; simpl. destruct (Ascii.eqb_spec c d); congruence.
Qed.

Lemma split_first_sound (pat s before after : jsstring) :
  split_first pat s = Some (before, after) -> s = before ++ pat ++ after.
Proof.
  revert before; induction s as [|c s IH]; intros before; simpl.
  - destruct (strip_prefix pat []) eqn:E; [|congruence].
    intros [= <- <-]. apply strip_prefix_sound in E. exact E.
  - destruct (strip_prefix pat (c :: s)) eqn:E.
    + intros [= <- <-]. apply strip_prefix_sound in E. exact E.
    + destruct (split_first pat s) as [[b a]|]; [|congruence].
      intros [= <- <-]. rewrite (IH b eq_refl). reflexivity.
Qed.

(** The first occurrence of a pattern that starts with [c] lies behind any
    text free of [c]. *)
Lemma split_first_skip (c : ascii) (p before after : jsstring) :
  c ∉ before ->
  split_first (c :: p) (before ++ (c :: p) ++ after) = Some (before, after).
Proof.
  induction before as [|d before IH]; intros N.
  - change ([] ++ (c :: p) ++ after) with ((c :: p) ++ after).
    destruct after; simpl; rewrite Ascii.eqb_refl;
      change (p ++ ?x) with (p ++ x); rewrite strip_prefix_app; reflexivity.
  - apply not_elem_of_cons in N as [N1 N2].
    change ((d :: before) ++ (c :: p) ++ after)
      with (d :: (before ++ (c :: p) ++ after)).
    cbn [split_first].
    rewrite strip_prefix_head by exact N1.
    rewrite (IH N2). reflexivity.
Qed.

(** A template without [$] is substituted as it stands. *)
Lemma GetSubstitution_plain (matched preceding following template : jsstring) :
  "$"%char ∉ template ->
  GetSubstitution matched preceding following template = template.
Proof.
  induction template as [|c t IH]; intros N; [reflexivity|].
  apply not_elem_of_cons in N as [N1 N2].
  simpl. destruct (Ascii.eqb_spec c "$"); [congruence|].
  rewrite (IH N2); reflexivity.
Qed.

(** ** Token grammar *)

Module TokenGrammarFacts.
Import TokenEngine TokenGrammar.

Lemma name_run_app (w rest : jsstring) :
  Forall (fun c => name_char c = true) w -> stops rest ->
  name_run (w ++ rest) = (w, rest).
Proof.
  intros Hw Hr; induction Hw as [|c w Hc _ IH]; simpl.
  - destruct rest as [|d rest]; [reflexivity|].
    simpl in *; rewrite Hr; reflexivity.
  - rewrite Hc, IH; reflexivity.
Qed.

Lemma name_run_sound (s w rest : jsstring) :
  name_run s = (w, rest) ->
  s = w ++ rest /\ Forall (fun c => name_char c = true) w /\ stops rest.
Proof.
  revert w rest; induction s as [|c s IH]; intros w rest; simpl.
  - intros [= <- <-]; repeat split; constructor.
  - destruct (name_char c) eqn:Hc.
    + destruct (name_run s) as [w' rest'].
      intros [= <- <-].
      destruct (IH _ _ eq_refl) as (-> & Hw & Hs).
      repeat split; [constructor; assumption | assumption].
    + intros [= <- <-]; repeat split; [constructor | exact Hc].
Qed.

Lemma token_text_unfold (ns cred : jsstring) (fld : option jsstring) (rest : jsstring) :
  token_text ns cred fld ++ rest =
  str "[VAULT:" ++ ns ++ ":"%char :: cred ++
    match fld with
    | Some f => "."%char :: f ++ "]"%char :: rest
    | None => "]"%char :: rest
    end.
Proof.
  unfold token_text; destruct fld; repeat rewrite <- app_assoc; reflexivity.
Qed.

(** The pattern matches a well-formed token wherever one starts. *)
Lemma match_token_complete (ns cred : jsstring) (fld : option jsstring) (rest : jsstring) :
  name_string ns -> name_string cred -> optional_name fld ->
  match_token (token_text ns cred fld ++ rest) = Some (make_token ns cred fld, rest).
Proof.
  intros [Nns Hns] [Ncred Hcred] Hfld.
  rewrite token_text_unfold. unfold match_token.
  rewrite strip_prefix_app.
  rewrite (name_run_app ns) by (assumption || reflexivity).
  destruct ns as [|n ns]; [congruence|].
  destruct fld as [f|].
  - destruct Hfld as [Nf Hf].
    rewrite (name_run_app cred) by (assumption || reflexivity).
    destruct cred as [|k cred]; [congruence|].
    rewrite (name_run_app f) by (assumption || reflexivity).
    destruct f as [|f0 f]; [congruence|]. reflexivity.
  - rewrite (name_run_app cred) by (assumption || reflexivity).
    destruct cred as [|k cred]; [congruence|]. reflexivity.
Qed.

(** A match is always the text of a well-formed token. *)
Lemma match_token_sound (s : jsstring) (t : VaultToken) (rest : jsstring) :
  match_token s = Some (t, rest) ->
  exists ns cred fld,
    name_string ns /\ name_string cred /\ optional_name fld /\
    t = make_token ns cred fld /\ s = token_text ns cred fld ++ rest.
Proof.
  unfold match_token.
  destruct (strip_prefix (str "[VAULT:") s) as [s1|] eqn:E1; [|congruence].
  apply strip_prefix_sound in E1; subst s.
  destruct (name_run s1) as [ns s2] eqn:R1.
  apply name_run_sound in R1 as (-> & Hns & _).
  destruct ns as [|n ns]; [congruence|].
  destruct s2 as [|c2 s3]; [congruence|].
  split_char c2.
  destruct (name_run s3) as [cred s4] eqn:R3.
  apply name_run_sound in R3 as (-> & Hcred & _).
  destruct cred as [|k cred]; [congruence|].
  destruct s4 as [|c4 s5]; [congruence|].
  split_char c4.
  - intros [= <- <-].
    exists (n :: ns), (k :: cred), None.
    rewrite token_text_unfold.
    repeat split; try assumption; congruence.
  - destruct (name_run s5) as [fld s6] eqn:R5.
    apply name_run_sound in R5 as (-> & Hfld & _).
    destruct fld as [|f fld]; [congruence|].
    destruct s6 as [|c6 s7]; [congruence|].
    split_char c6.
    intros [= <- <-].
    exists (n :: ns), (k :: cred), (Some (f :: fld)).
    rewrite token_text_unfold.
    repeat split; try assumption; congruence.
Qed.

Lemma matches_NAME (w : jsstring) : matches NAME w <-> name_string w.
Proof.
  unfold NAME, name_string; split.
  - intros H. remember (Plus (Class name_char)) as r eqn:Er.
    induction H as [| | | r w H _ | r w1 w2 H1 _ H2 IH | |]; try discriminate.
    + injection Er as ->. inversion H; subst. split; [discriminate|].
      constructor; [assumption | constructor].
    + injection Er as ->. inversion H1; subst.
      destruct (IH eq_refl) as [_ Hw2].
      split; [discriminate|]. constructor; assumption.
  - intros [Hne Hall]. induction Hall as [|c w Hc Hw IH]; [congruence|].
    destruct w as [|d w].
    + apply matches_plus_one, matches_class, Hc.
    + apply (matches_plus_more _ [c] (d :: w)).
      * apply matches_class, Hc.
      * apply IH; discriminate.
Qed.

(** The words of [TOKEN_PATTERN] are the well-formed tokens of the
    specification. *)
Lemma matches_TOKEN_PATTERN (w : jsstring) :
  matches TOKEN_PATTERN w <-> well_formed_token w.
Proof.
  unfold TOKEN_PATTERN, well_formed_token; split.
  - intros H.
    inversion H as [| |? ? w0 w1 H0 H1| | | |]; subst; clear H.
    inversion H0; subst; clear H0.
    inversion H1 as [| |? ? ns w2 Hns H2| | | |]; subst; clear H1.
    inversion H2 as [| |? ? w3 w4 H3 H4| | | |]; subst; clear H2.
    inversion H3; subst; clear H3.
    inversion H4 as [| |? ? cred w5 Hcred H5| | | |]; subst; clear H4.
    inversion H5 as [| |? ? w6 w7 H6 H7| | | |]; subst; clear H5.
    inversion H7; subst; clear H7.
    apply matches_NAME in Hns, Hcred.
    inversion H6 as [| | | | | |? w8 H8]; subst; clear H6.
    + exists ns, cred, None. repeat split; try assumption; apply Hns || apply Hcred.
    + inversion H8 as [| |? ? w9 f H9 Hf| | | |]; subst; clear H8.
      inversion H9; subst; clear H9.
      apply matches_NAME in Hf.
      exists ns, cred, (Some f). repeat split; try assumption;
        apply Hns || apply Hcred || apply Hf.
  - intros (ns & cred & fld & Hns & Hcred & Hfld & ->).
    apply matches_NAME in Hns, Hcred. unfold token_text.
    apply matches_cat; [constructor|].
    apply matches_cat; [assumption|].
    apply matches_cat; [constructor|].
    apply matches_cat; [assumption|].
    apply matches_cat; [|constructor].
    destruct fld as [f|].
    + apply matches_opt_some, matches_cat; [constructor|].
      apply matches_NAME; exact Hfld.
    + apply matches_opt_none.
Qed.

(** [match_token] succeeds exactly where a match of [TOKEN_PATTERN]
    starts; the text it reports as matched is that match. *)
Lemma match_token_iff_pattern (s rest : jsstring) :
  (exists t, match_token s = Some (t, rest)) <->
  (exists w, matches TOKEN_PATTERN w /\ s = w ++ rest).
Proof.
  split.
  - intros (t & H).
    destruct (match_token_sound _ _ _ H) as (ns & cred & fld & Hns & Hcred & Hfld & -> & ->).
    exists (token_text ns cred fld); split; [|reflexivity].
    apply matches_TOKEN_PATTERN. exists ns, cred, fld; auto.
  - intros (w & Hm & ->).
    apply matches_TOKEN_PATTERN in Hm as (ns & cred & fld & Hns & Hcred & Hfld & ->).
    exists (make_token ns cred fld). apply match_token_complete; assumption.
Qed.

Lemma match_token_raw (s : jsstring) (t : VaultToken) (rest : jsstring) :
  match_token s = Some (t, rest) ->
  matches TOKEN_PATTERN (raw t) /\ s = raw t ++ rest.
Proof.
  intros H.
  destruct (match_token_sound _ _ _ H) as (ns & cred & fld & Hns & Hcred & Hfld & -> & ->).
  split; [|reflexivity].
  apply matches_TOKEN_PATTERN. exists ns, cred, fld; auto.
Qed.

(** At most one match starts at a given place, so the leftmost match is
    the same for every matching strategy. *)
Lemma pattern_match_unique (w1 w2 r1 r2 : jsstring) :
  matches TOKEN_PATTERN w1 -> matches TOKEN_PATTERN w2 ->
  w1 ++ r1 = w2 ++ r2 -> w1 = w2 /\ r1 = r2.
Proof.
  intros H1 H2 E.
  apply matches_TOKEN_PATTERN in H1 as (ns1 & c1 & f1 & ? & ? & ? & ->).
  apply matches_TOKEN_PATTERN in H2 as (ns2 & c2 & f2 & ? & ? & ? & ->).
  pose proof (match_token_complete ns1 c1 f1 r1) as M1.
  pose proof (match_token_complete ns2 c2 f2 r2) as M2.
  rewrite E in M1. rewrite M2 in M1 by assumption.
  specialize (M1 ltac:(assumption) ltac:(assumption) ltac:(assumption)).
  injection M1 as Ht Hr. subst r2.
  split; [|reflexivity]. apply app_inv_tail in E. exact E.
Qed.

Lemma validateTokenFormat_suffix (pre s : jsstring) :
  validateTokenFormat s = true -> validateTokenFormat (pre ++ s) = true.
Proof.
  intros H; induction pre as [|c pre IH]; [exact H|].
  simpl. destruct (match_token (c :: pre ++ s)); [reflexivity | exact IH].
Qed.

Lemma validateTokenFormat_match (s : jsstring) :
  validateTokenFormat s = true ->
  exists pre t rest suffix, s = pre ++ suffix /\ match_token suffix = Some (t, rest).
Proof.
  induction s as [|c s IH]; simpl.
  - destruct (match_token []) as [[t rest]|] eqn:E; [|congruence].
    intros _; exists [], t, rest, []; split; [reflexivity | exact E].
  - destruct (match_token (c :: s)) as [[t rest]|] eqn:E.
    + intros _; exists [], t, rest, (c :: s); split; [reflexivity | exact E].
    + intros H; destruct (IH H) as (pre & t & rest & suffix & -> & Hm).
      exists (c :: pre), t, rest, suffix; split; [reflexivity | exact Hm].
Qed.

Lemma validateTokenFormat_here (s : jsstring) (m : VaultToken * jsstring) :
  match_token s = Some m -> validateTokenFormat s = true.
Proof.
  intros H; destruct s; cbn [validateTokenFormat]; rewrite H; reflexivity.
Qed.

(** C9: [validateTokenFormat] answers [true] exactly for the strings
    that contain a well-formed token [[VAULT:namespace:credential(.field)?]]
    somewhere; the pattern is not anchored, so any text may surround the
    token. *)
Theorem validateTokenFormat_iff_contains_token (s : jsstring) :
  validateTokenFormat s = true <-> contains_token s.
Proof.
  split.
  - intros H.
    destruct (validateTokenFormat_match s H) as (pre & t & rest & suffix & -> & Hm).
    destruct (match_token_sound _ _ _ Hm) as (ns & cred & fld & Hns & Hcred & Hfld & _ & ->).
    exists pre, (token_text ns cred fld), rest; split; [reflexivity|].
    exists ns, cred, fld; auto.
  - intros (pre & w & post & -> & ns & cred & fld & Hns & Hcred & Hfld & ->).
    apply validateTokenFormat_suffix.
    eapply validateTokenFormat_here.
    apply match_token_complete; assumption.
Qed.

Lemma matchAll_unfold (s : jsstring) :
  matchAll s =
  match match_token s with
  | Some (t, rest) => t :: matchAll rest
  | None => match s with [] => [] | _ :: s' => matchAll s' end
  end.
Proof.
  funelim (matchAll s).
  - rewrite E; reflexivity.
  - reflexivity.
  - rewrite e; reflexivity.
Qed.

Lemma match_token_not_bracket (c : ascii) (s : jsstring) :
  c <> "["%char -> match_token (c :: s) = None.
Proof.
  intros N; unfold match_token.
  change (str "[VAULT:") with ("["%char :: str "VAULT:").
  rewrite strip_prefix_head by congruence. reflexivity.
Qed.

Lemma matchAll_gap (g rest : jsstring) :
  "["%char ∉ g -> matchAll (g ++ rest) = matchAll rest.
Proof.
  induction g as [|c g IH]; intros N; [reflexivity|].
  apply not_elem_of_cons in N as [N1 N2].
  rewrite matchAll_unfold. simpl.
  rewrite match_token_not_bracket by congruence.
  apply IH; assumption.
Qed.

(** Extraction finds exactly the tokens of a segmented text. *)
Lemma extractTokens_source (segs : list segment) :
  Forall wf_segment segs -> extractTokens (source segs) = tokens_of segs.
Proof.
  unfold extractTokens.
  induction 1 as [|seg segs Hseg _ IH]; cbn [source tokens_of].
  - rewrite matchAll_unfold; reflexivity.
  - destruct seg as [g | ns cred fld]; cbn [source tokens_of]; simpl in Hseg.
    + rewrite matchAll_gap by assumption. exact IH.
    + destruct Hseg as (Hns & Hcred & Hfld).
      rewrite matchAll_unfold, match_token_complete by assumption.
      rewrite IH; reflexivity.
Qed.

End TokenGrammarFacts.

(** ** Substitution *)

Module TokenEngineFacts.
Import TokenEngine TokenGrammar TokenGrammarFacts Examples.

Lemma mapR_ok {A B} (f : A -> Result B) (g : A -> B) (xs : list A) :
  Forall (fun x => f x = Ok (g x)) xs -> mapR f xs = Ok (map g xs).
Proof.
  induction 1 as [|x xs Hx _ IH]; simpl; [reflexivity|].
  rewrite Hx; simpl. rewrite IH; reflexivity.
Qed.

Lemma resolveToken_raw (t : VaultToken) (creds : gmap jsstring Json)
    (x : jsstring) (v : JsValue) :
  resolveToken t creds = Ok (x, v) -> x = raw t.
Proof.
  unfold resolveToken.
  destruct (creds !! _) as [cred|]; [|discriminate].
  destruct (truthy cred); simpl; [|discriminate].
  destruct (field t) as [[|c f]|]; destruct cred as [| |s|props];
    try destruct (js_in _ _); congruence.
Qed.

Lemma token_text_head (ns cred : jsstring) (fld : option jsstring) :
  token_text ns cred fld = "["%char :: (str "VAULT:" ++ ns ++ str ":" ++ cred ++
    match fld with Some f => str "." ++ f | None => [] end ++ str "]").
Proof. reflexivity. Qed.

(** One step of the loop, on a text whose processed part holds no [[]. *)
Lemma js_replace_token (done rest r : jsstring) (ns cred : jsstring)
    (fld : option jsstring) (v : JsValue) :
  "["%char ∉ done -> IsCallable v = false -> ToString v = Ok r -> "$"%char ∉ r ->
  js_replace (done ++ token_text ns cred fld ++ rest) (token_text ns cred fld) v
  = Ok (done ++ r ++ rest).
Proof.
  intros Hdone Hcall Hstr Hr.
  unfold js_replace. rewrite Hcall, Hstr.
  unfold mbind, Result_bind.
  rewrite token_text_head.
  rewrite split_first_skip by assumption.
  rewrite GetSubstitution_plain by assumption.
  reflexivity.
Qed.

Lemma replacement_inv (creds : gmap jsstring Json) (t : VaultToken) (r : jsstring) :
  replacement creds t = Some r ->
  exists v, resolveToken t creds = Ok (raw t, v) /\ IsCallable v = false /\ ToString v = Ok r.
Proof.
  unfold replacement.
  destruct (resolveToken t creds) as [[x v]|] eqn:E; [|discriminate].
  pose proof (resolveToken_raw _ _ _ _ E) as ->.
  destruct (IsCallable v) eqn:C; [discriminate|].
  destruct (ToString v) as [tpl|] eqn:S; [|discriminate].
  intros [= <-]. exists v; auto.
Qed.

Lemma apply_substitutions_segments (creds : gmap jsstring Json) (segs : list segment) :
  Forall wf_segment segs ->
  Forall (fun t => exists r, replacement creds t = Some r /\ plain_text r) (tokens_of segs) ->
  forall done, "["%char ∉ done ->
  apply_substitutions (done ++ source segs) (map (resolved creds) (tokens_of segs))
  = Ok (done ++ rendered (replacement_text creds) segs).
Proof.
  induction 1 as [|seg segs Hseg _ IH]; intros Htok done Hdone.
  - reflexivity.
  - destruct seg as [g | ns cred fld]; cbn [source tokens_of rendered map] in *.
    + rewrite !app_assoc. apply IH; [assumption|].
      simpl in Hseg. rewrite not_elem_of_app; auto.
    + apply Forall_cons in Htok as [(r & Hr & Hplain & Hdollar) Htok].
      destruct (replacement_inv _ _ _ Hr) as (v & Hv & Hcall & Hstr).
      unfold resolved at 1. rewrite Hv.
      cbn [apply_substitutions raw make_token].
      rewrite (js_replace_token done _ r) by assumption. simpl.
      unfold replacement_text at 1. rewrite Hr. simpl.
      rewrite !app_assoc. apply IH; [assumption|].
      rewrite not_elem_of_app; auto.
Qed.

(** On a segmented text whose tokens all resolve to plain replacement
    texts, [substituteTokens] writes each replacement in place of its
    token. *)
Lemma substituteTokens_rendered (creds : gmap jsstring Json) (segs : list segment) :
  Forall wf_segment segs ->
  Forall (fun t => exists r, replacement creds t = Some r /\ plain_text r) (tokens_of segs) ->
  substituteTokens (source segs) creds = Ok (rendered (replacement_text creds) segs).
Proof.
  intros Hwf Htok. unfold substituteTokens.
  rewrite extractTokens_source by assumption.
  rewrite (mapR_ok _ (resolved creds)).
  - simpl. apply (apply_substitutions_segments creds segs Hwf Htok []).
    apply not_elem_of_nil.
  - eapply Forall_impl; [exact Htok|].
    intros t (r & Hr & _). destruct (replacement_inv _ _ _ Hr) as (v & Hv & _).
    unfold resolved; rewrite Hv; reflexivity.
Qed.

Lemma split_first_absent (c : ascii) (p s : jsstring) :
  c ∉ s -> split_first (c :: p) s = None.
Proof.
  induction s as [|d s IH]; intros N; [reflexivity|].
  apply not_elem_of_cons in N as [N1 N2].
  cbn [split_first]. rewrite strip_prefix_head by assumption.
  rewrite (IH N2); reflexivity.
Qed.

Lemma rendered_no_bracket (creds : gmap jsstring Json) (segs : list segment) :
  Forall wf_segment segs ->
  Forall (fun t => exists r, replacement creds t = Some r /\ plain_text r) (tokens_of segs) ->
  "["%char ∉ rendered (replacement_text creds) segs.
Proof.
  induction 1 as [|seg segs Hseg _ IH]; intros Htok; cbn [rendered].
  - apply not_elem_of_nil.
  - destruct seg as [g | ns cred fld]; cbn [tokens_of] in Htok.
    + rewrite not_elem_of_app; split; [exact Hseg | auto].
    + apply Forall_cons in Htok as [(r & Hr & Hplain & _) Htok].
      unfold replacement_text at 1; rewrite Hr; simpl.
      rewrite not_elem_of_app; split; auto.
Qed.

Lemma resolved_string_replacement (creds : gmap jsstring Json) (t : VaultToken) (v : jsstring) :
  resolved_string creds t = Some v -> replacement creds t = Some v.
Proof.
  unfold resolved_string, replacement.
  destruct (resolveToken t creds) as [[x [[| |w|]| |]]|]; try discriminate.
  intros [= ->]; reflexivity.
Qed.

Lemma rendered_ext (f g : VaultToken -> jsstring) (segs : list segment) :
  Forall (fun t => f t = g t) (tokens_of segs) -> rendered f segs = rendered g segs.
Proof.
  induction segs as [|[h | ns cred fld] segs IH]; cbn [rendered tokens_of]; intros H.
  - reflexivity.
  - rewrite IH by assumption; reflexivity.
  - apply Forall_cons in H as [H1 H2]. rewrite H1, IH by assumption; reflexivity.
Qed.

(** C8, as amended: on a text in which every [[] opens a well-formed
    token, and whose tokens all resolve to strings that hold neither [[]
    nor [$], substitution succeeds, writes exactly the resolved string in
    place of every token occurrence, and leaves no [[VAULT:] marker. *)
Theorem substituteTokens_replaces_every_token
    (creds : gmap jsstring Json) (segs : list segment) :
  Forall wf_segment segs ->
  Forall (fun t => exists v, resolved_string creds t = Some v /\ plain_text v)
         (tokens_of segs) ->
  exists out,
    substituteTokens (source segs) creds = Ok out /\
    out = rendered (fun t => default [] (resolved_string creds t)) segs /\
    includes (str "[VAULT:") out = false.
Proof.
  intros Hwf Hres.
  assert (Hrep : Forall (fun t => exists r, replacement creds t = Some r /\ plain_text r)
                        (tokens_of segs)).
  { eapply Forall_impl; [exact Hres|].
    intros t (v & Hv & Hp). exists v; split; [|exact Hp].
    apply resolved_string_replacement; exact Hv. }
  assert (Heq : rendered (replacement_text creds) segs
                = rendered (fun t => default [] (resolved_string creds t)) segs).
  { apply rendered_ext. eapply Forall_impl; [exact Hres|].
    intros t (v & Hv & _). unfold replacement_text.
    rewrite (resolved_string_replacement _ _ _ Hv), Hv; reflexivity. }
  eexists; split; [apply substituteTokens_rendered; assumption|].
  split; [exact Heq|].
  unfold includes. change (str "[VAULT:") with ("["%char :: str "VAULT:").
  rewrite split_first_absent; [reflexivity|].
  apply rendered_no_bracket; assumption.
Qed.

(** The example of the specification: the text
    [[VAULT:personal:chase_login.username] / [VAULT:personal:chase_login.password]]
    becomes exactly [m@x.com / p1]. *)
Lemma substituteTokens_chase_login :
  Forall wf_segment chase_segments /\
  Forall (fun t => exists v, resolved_string chase_credentials t = Some v /\ plain_text v)
         (tokens_of chase_segments) /\
  exists out,
    substituteTokens
      (str "[VAULT:personal:chase_login.username] / [VAULT:personal:chase_login.password]")
      chase_credentials = Ok out /\
    out = str "m@x.com / p1" /\
    includes (str "[VAULT:") out = false.
Proof.
  assert (H1 : Forall wf_segment chase_segments).
  { unfold chase_segments; closed_conditions. }
  assert (H2 : Forall (fun t => exists v, resolved_string chase_credentials t = Some v
                                          /\ plain_text v)
                      (tokens_of chase_segments)).
  { repeat constructor.
    - exists (str "m@x.com"); split; [vm_compute; reflexivity | closed_conditions].
    - exists (str "p1"); split; [vm_compute; reflexivity | closed_conditions]. }
  split; [exact H1|]. split; [exact H2|].
  exact (substituteTokens_replaces_every_token chase_credentials chase_segments H1 H2).
Defined.

(** C8, as stated, fails: a credential whose value itself holds a token
    marker resolves, is substituted verbatim, and the output keeps a
    [[VAULT:] marker. *)
Lemma substituteTokens_leaves_marker :
  let creds : gmap jsstring Json :=
    {[ str "personal:note" := JStr (str "see [VAULT:team:wiki]") ]} in
  let segs := [ Gap (str "Note: "); Tok (str "personal") (str "note") None ] in
  Forall wf_segment segs /\
  source segs = str "Note: [VAULT:personal:note]" /\
  Forall (fun t => resolved_string creds t = Some (str "see [VAULT:team:wiki]"))
         (tokens_of segs) /\
  substituteTokens (source segs) creds = Ok (str "Note: see [VAULT:team:wiki]") /\
  includes (str "[VAULT:") (str "Note: see [VAULT:team:wiki]") = true.
Proof.
  cbv zeta. split; [closed_conditions|].
  split; [reflexivity|].
  split; [repeat constructor|].
  split; vm_compute; reflexivity.
Qed.

(** [replace] expands [$&], [$$], [$`] and [$'] in the value it is given: a
    password holding [$&] comes out with the token spliced into it. *)
Lemma substituteTokens_expands_dollar :
  substituteTokens (str "pw=[VAULT:personal:pw]")
                   {[ str "personal:pw" := JStr (str "a$&b$$c") ]}
  = Ok (str "pw=a[VAULT:personal:pw]b$c").
Proof. vm_compute; reflexivity. Qed.

(** A field selector on a payload that is not an object, or on an object
    that neither owns nor inherits the field, is refused. *)
Lemma resolveToken_field_not_found (t : VaultToken) (creds : gmap jsstring Json)
    (cred : Json) (fld : jsstring) :
  field t = Some fld -> fld <> [] ->
  creds !! credential_key (namespace t) (credential t) = Some cred ->
  truthy cred = true ->
  match cred with
  | JObj props => own_property props fld = None /\ inherited fld = false
  | _ => True
  end ->
  resolveToken t creds
  = Throw (fieldNotFound fld (credential_key (namespace t) (credential t))).
Proof.
  intros Hf Hne Hget Htruthy Hcred.
  unfold resolveToken. rewrite Hget, Htruthy, Hf. simpl.
  destruct fld as [|c fld]; [congruence|].
  destruct cred as [| |s|props]; try reflexivity.
  destruct Hcred as [Hown Hinh]. unfold js_in. rewrite Hown, Hinh. reflexivity.
Qed.

(** C7: the field test [token.field in credential] also answers [true]
    for every member the payload inherits from [Object.prototype].  For
    the structured credential [{username: "test"}] the selector
    [.toString] names no field of the payload, yet resolution succeeds
    with the inherited function, and the substituted text is the coerced
    value [[object Undefined]] instead of a [FIELD_NOT_FOUND] failure. *)
Theorem resolveToken_inherited_member_not_refused :
  let creds : gmap jsstring Json :=
    {[ str "personal:cred" := JObj [ (str "username", JStr (str "test")) ] ]} in
  own_property [ (str "username", JStr (str "test")) ] (str "toString") = None /\
  resolveToken (make_token (str "personal") (str "cred") (Some (str "toString"))) creds
  = Ok (str "[VAULT:personal:cred.toString]", VInherited (str "toString")) /\
  substituteTokens (str "Missing field: [VAULT:personal:cred.toString]") creds
  = Ok (str "Missing field: [object Undefined]").
Proof.
  cbv zeta. repeat split; vm_compute; reflexivity.
Qed.

(** A text with a single token, between stretches free of [[]. *)
Lemma substituteTokens_single (creds : gmap jsstring Json)
    (ns cred : jsstring) (fld : option jsstring) (pre post r : jsstring) :
  name_string ns -> name_string cred -> optional_name fld ->
  "["%char ∉ pre -> "["%char ∉ post ->
  replacement creds (make_token ns cred fld) = Some r -> plain_text r ->
  substituteTokens (pre ++ token_text ns cred fld ++ post) creds = Ok (pre ++ r ++ post).
Proof.
  intros Hns Hcred Hfld Hpre Hpost Hrep Hplain.
  pose (segs := [Gap pre; Tok ns cred fld; Gap post]).
  assert (Hwf : Forall wf_segment segs).
  { apply Forall_cons_2; [exact Hpre|].
    apply Forall_cons_2; [exact (conj Hns (conj Hcred Hfld))|].
    apply Forall_cons_2; [exact Hpost | apply Forall_nil_2]. }
  assert (Htok : Forall (fun t => exists r, replacement creds t = Some r /\ plain_text r)
                        (tokens_of segs)).
  { apply Forall_cons_2; [|apply Forall_nil_2]. exists r; split; assumption. }
  pose proof (substituteTokens_rendered creds segs Hwf Htok) as H.
  cbn [segs source rendered] in H.
  unfold replacement_text in H. rewrite Hrep in H.
  rewrite !app_nil_r in H. exact H.
Qed.

(** In a text with a single token and no other [[], a token without
    field selector whose credential is an object receives the object's
    [value] member when that is a string holding neither [[] nor [$], and
    the text [undefined] when the object has no such member. *)
Lemma substituteTokens_object_plain_value
    (creds : gmap jsstring Json) (props : list (jsstring * Json))
    (ns cred pre post : jsstring) :
  name_string ns -> name_string cred ->
  "["%char ∉ pre -> "["%char ∉ post ->
  creds !! credential_key ns cred = Some (JObj props) ->
  (forall v, own_property props (str "value") = Some (JStr v) -> plain_text v ->
   substituteTokens (pre ++ token_text ns cred None ++ post) creds
   = Ok (pre ++ v ++ post)) /\
  (own_property props (str "value") = None ->
   substituteTokens (pre ++ token_text ns cred None ++ post) creds
   = Ok (pre ++ str "undefined" ++ post)).
Proof.
  intros Hns Hcred Hpre Hpost Hget.
  assert (Hres : resolveToken (make_token ns cred None) creds
                 = Ok (token_text ns cred None, js_get props (str "value"))).
  { unfold resolveToken. cbn [namespace credential field raw make_token].
    rewrite Hget. reflexivity. }
  split.
  - intros v Hown Hplain.
    apply substituteTokens_single; try assumption; [exact I|].
    unfold replacement. rewrite Hres. unfold js_get. rewrite Hown. reflexivity.
  - intros Hown.
    assert (Hundef : js_get props (str "value") = VUndefined).
    { unfold js_get. rewrite Hown. reflexivity. }
    rewrite Hundef in Hres.
    apply substituteTokens_single; try assumption; [exact I | |].
    + unfold replacement. rewrite Hres. reflexivity.
    + split; by_evaluation.
Qed.

(** An object with a plain [value] member, and one without. *)
Lemma substituteTokens_object_examples :
  substituteTokens (str "pw=[VAULT:personal:db];")
                   {[ str "personal:db" := JObj [ (str "value", JStr (str "s3cret")) ] ]}
  = Ok (str "pw=s3cret;") /\
  substituteTokens (str "key=[VAULT:business:aws];")
                   {[ str "business:aws" := JObj [ (str "access_key", JStr (str "AKIA")) ] ]}
  = Ok (str "key=undefined;").
Proof. split; vm_compute; reflexivity. Qed.

(** C10: the object's [value] member is handed to [replace] as a
    replacement template, so it does not reach the text as it is stored:
    for the object [{value: "pa$$w0rd"}] the token resolves to the stored
    password, yet the text receives [pa$w0rd]; a member holding [$&] gets
    the token itself spliced back into it. *)
Theorem substituteTokens_value_member_rewritten :
  let props := [ (str "value", JStr (str "pa$$w0rd")) ] in
  let creds : gmap jsstring Json := {[ str "personal:db" := JObj props ]} in
  own_property props (str "value") = Some (JStr (str "pa$$w0rd")) /\
  resolveToken (make_token (str "personal") (str "db") None) creds
  = Ok (str "[VAULT:personal:db]", VJson (JStr (str "pa$$w0rd"))) /\
  substituteTokens (str "pw=[VAULT:personal:db]") creds = Ok (str "pw=pa$w0rd") /\
  substituteTokens (str "pw=[VAULT:personal:db]")
                   {[ str "personal:db" := JObj [ (str "value", JStr (str "x$&y")) ] ]}
  = Ok (str "pw=x[VAULT:personal:db]y").
Proof.
  cbv zeta. repeat split; vm_compute; reflexivity.
Qed.

End TokenEngineFacts.

(** ** Access checks of the MCP server *)

Module McpServerFacts.
Import TokenEngine McpServer Examples.

Section Denial.

Variable hasAccess : jsstring -> jsstring -> bool.
Variable lookupCredential : VaultToken -> option Credential.

(** The checking loop stops at the first token the agent may not read. *)
Lemma check_tokens_denied (agent_id : jsstring) (tokens : list VaultToken) :
  Exists (denied hasAccess agent_id) tokens ->
  exists t, t ∈ tokens /\ denied hasAccess agent_id t /\
            check_tokens hasAccess agent_id tokens = Throw (refusal t).
Proof.
  induction tokens as [|t tokens IH]; intros H.
  - inversion H.
  - cbn [check_tokens].
    destruct (hasAccess agent_id (credential_key (namespace t) (credential t))) eqn:E.
    + apply Exists_cons in H as [H|H]; [unfold denied in H; congruence|].
      destruct (IH H) as (t' & Hin & Hden & Hthrow).
      exists t'; repeat split; [apply list_elem_of_further, Hin | exact Hden | exact Hthrow].
    + exists t; repeat split; [apply list_elem_of_here | exact E].
Qed.

Lemma check_tokens_allowed (agent_id : jsstring) (tokens : list VaultToken) :
  Forall (fun t => hasAccess agent_id (credential_key (namespace t) (credential t)) = true)
         tokens ->
  check_tokens hasAccess agent_id tokens = Ok tt.
Proof.
  induction 1 as [|t tokens Ht _ IH]; cbn [check_tokens]; [reflexivity|].
  rewrite Ht. exact IH.
Qed.

(** C6: when the access check refuses one of the tokens of a request,
    the whole request fails with the authentication error that names the
    refused credential key (the first one refused, in the order of the
    text); the reply is that error alone, so no value of any other token
    is returned. *)
Theorem handleTokenSubstitution_fails_closed (text agent_id : jsstring) :
  Exists (denied hasAccess agent_id) (extractTokens text) ->
  exists t,
    t ∈ extractTokens text /\ denied hasAccess agent_id t /\
    handleTokenSubstitution_with hasAccess lookupCredential text agent_id
    = Throw (VaultError
               (str "No access to " ++ credential_key (namespace t) (credential t))
               (str "AUTH_FAILED")).
Proof.
  intros H. unfold handleTokenSubstitution_with.
  destruct (check_tokens_denied agent_id _ H) as (t & Hin & Hden & Hthrow).
  exists t; repeat split; [exact Hin | exact Hden |].
  destruct (extractTokens text) as [|t0 tokens] eqn:E; [inversion H|].
  rewrite Hthrow. reflexivity.
Qed.

End Denial.

(** A request by [grant] for both secrets, of which only the first is
    granted: the reply is the refusal of [finance:schwab_api] and holds
    neither secret. *)
Lemma handleTokenSubstitution_fails_closed_witness :
  exists t,
    t ∈ extractTokens (str "[VAULT:personal:api_key] and [VAULT:finance:schwab_api]") /\
    denied (hasAccess_js granted_db) (str "grant") t /\
    handleTokenSubstitution_js granted_db
      (str "[VAULT:personal:api_key] and [VAULT:finance:schwab_api]") (str "grant")
    = Throw (VaultError
               (str "No access to " ++ credential_key (namespace t) (credential t))
               (str "AUTH_FAILED")).
Proof.
  apply (handleTokenSubstitution_fails_closed (hasAccess_js granted_db)).
  assert (E : extractTokens (str "[VAULT:personal:api_key] and [VAULT:finance:schwab_api]")
              = [ make_token (str "personal") (str "api_key") None;
                  make_token (str "finance") (str "schwab_api") None ])
    by (vm_compute; reflexivity).
  rewrite E. apply Exists_cons_tl, Exists_cons_hd.
  vm_compute; reflexivity.
Defined.

Lemma handleTokenSubstitution_js_refusal_text :
  handleTokenSubstitution_js granted_db
    (str "[VAULT:personal:api_key] and [VAULT:finance:schwab_api]") (str "grant")
  = Throw (VaultError (str "No access to finance:schwab_api") (str "AUTH_FAILED")).
Proof. vm_compute; reflexivity. Qed.

(** The compiled server denies by default: access needs an active row of
    [access_grants] for that agent and that credential. *)
Lemma hasAccess_js_needs_active_grant (db : VaultDB.t) (agentId credentialKey : jsstring) :
  hasAccess_js db agentId credentialKey = true ->
  exists c row,
    c ∈ VaultDB.credentials db /\ row ∈ VaultDB.access_grants db /\
    VaultDB.agent_id row = agentId /\
    VaultDB.credential_id row = cred_id c /\
    VaultDB.is_active row = 1%Z.
Proof.
  unfold hasAccess_js.
  destruct (split_on ":" credentialKey) as [|ns [|nm rest]]; try discriminate.
  destruct (VaultDB.getCredential db ns nm) as [c|] eqn:G; [|discriminate].
  destruct (cred_id c) as [|i0 i] eqn:Hid; [discriminate|].
  unfold VaultDB.hasAccess; cbn [fst].
  intros H. apply Nat.ltb_lt in H.
  destruct (List.filter _ (VaultDB.access_grants db)) as [|row rows] eqn:F;
    [simpl in H; lia|].
  assert (Hrow : In row (List.filter
            (fun row => bool_decide (VaultDB.agent_id row = agentId)
                        && bool_decide (VaultDB.credential_id row = i0 :: i)
                        && (VaultDB.is_active row =? 1)%Z)
            (VaultDB.access_grants db))) by (rewrite F; left; reflexivity).
  apply filter_In in Hrow as [Hin Hcond].
  apply andb_prop in Hcond as [Hcond Hact].
  apply andb_prop in Hcond as [Hag Hcr].
  apply bool_decide_eq_true in Hag, Hcr. apply Z.eqb_eq in Hact.
  unfold VaultDB.getCredential in G. apply find_some in G as [Gin _].
  exists c, row. rewrite Hid.
  repeat split; try assumption; apply list_elem_of_In; assumption.
Qed.

(** C1: the TypeScript server answers every access check with [true].
    With an empty grant table, a substitution request by an agent that
    was never granted anything returns the secret. *)
Theorem handleTokenSubstitution_ts_without_grant :
  grants ungranted_state = ∅ /\
  hasAccess_ts ungranted_state (str "mallory") (str "personal:api_key") = true /\
  handleTokenSubstitution_ts ungranted_state
    (str "key: [VAULT:personal:api_key]") (str "mallory")
  = Ok (str "key: sk-live-123").
Proof.
  repeat split; vm_compute; reflexivity.
Qed.

(** The same request against the compiled server is refused. *)
Lemma handleTokenSubstitution_js_without_grant :
  handleTokenSubstitution_js ungranted_db
    (str "key: [VAULT:personal:api_key]") (str "mallory")
  = Throw (VaultError (str "No access to personal:api_key") (str "AUTH_FAILED")).
Proof. vm_compute; reflexivity. Qed.

End McpServerFacts.

(** ** Grants in the database *)

Module VaultDBFacts.
Import VaultDB McpServer Examples.

(** The check is a query: it leaves the database as it found it. *)
Lemma hasAccess_reads_only (db : VaultDB.t) (agentId credentialId : jsstring) :
  snd (hasAccess db agentId credentialId) = db.
Proof. reflexivity. Qed.

(** Hence a check can be repeated at will with the same answer. *)
Lemma hasAccess_repeatable (db : VaultDB.t) (agentId credentialId : jsstring) :
  hasAccess (snd (hasAccess db agentId credentialId)) agentId credentialId
  = hasAccess db agentId credentialId.
Proof. reflexivity. Qed.

Lemma filter_app_length {A} (f : A -> bool) (l1 l2 : list A) :
  length (List.filter f (l1 ++ l2)) = length (List.filter f l1) + length (List.filter f l2).
Proof.
  rewrite List.filter_app, List.length_app. reflexivity.
Qed.

(** Whatever its expiry and its remaining uses, a grant stored while
    active makes the check succeed. *)
Lemma hasAccess_after_createGrant (db db' : VaultDB.t) (grant : AccessGrant) (now : timestamp) :
  createGrant db grant now = Ok db' ->
  isActive grant = true ->
  fst (hasAccess db' (agentId grant) (credentialId grant)) = true.
Proof.
  unfold createGrant.
  destruct (existsb _ (access_grants db)); [discriminate|].
  destruct (negb _); [discriminate|].
  intros [= <-] Hactive.
  unfold hasAccess; cbn [fst access_grants].
  rewrite filter_app_length. cbn [List.filter agent_id credential_id is_active].
  rewrite Hactive, !bool_decide_eq_true_2 by reflexivity.
  simpl. apply Nat.ltb_lt. lia.
Qed.

(** C2: a grant created with one remaining use is stored with
    [uses_remaining = 1], and the check neither reads nor decrements the
    counter: two successive checks both succeed and the row still holds
    one remaining use. *)
Theorem hasAccess_single_use_grant_twice :
  exists db1,
    createGrant ungranted_db single_use_grant 0 = Ok db1 /\
    map uses_remaining (access_grants db1) = [Some 1%Z] /\
    hasAccess db1 (str "grant") (str "cred_1") = (true, db1) /\
    hasAccess (snd (hasAccess db1 (str "grant") (str "cred_1"))) (str "grant") (str "cred_1")
    = (true, db1).
Proof.
  eexists; split; [vm_compute; reflexivity|].
  repeat split; vm_compute; reflexivity.
Qed.

(** C3: [handleGrantAccess] stamps the grant with [expiresAt], but no
    check reads it.  The TypeScript server answers [true] without looking
    at the grant, so a request made after the expiry still returns the
    secret; the database keeps no expiry column, and its check, which
    takes no clock, succeeds for the stored grant on the credential's id
    as long as the row is active. *)
Theorem hasAccess_ignores_expiry :
  exists st,
    handleGrantAccess_ts ungranted_state [str "g2"] [str "personal:api_key"]
                         (str "grant") 30 0 (str "Banking workflow") 0 = Ok st /\
    grants st !! str "g2" = Some half_hour_grant /\
    expiresAt half_hour_grant = Some 1800000%Z /\
    hasAccess_ts st (str "grant") (str "personal:api_key") = true /\
    handleTokenSubstitution_ts st (str "[VAULT:personal:api_key]") (str "grant")
    = Ok (str "sk-live-123") /\
    expiresAt half_hour_db_grant = Some 1800000%Z /\
    exists db1,
      createGrant ungranted_db half_hour_db_grant 0 = Ok db1 /\
      hasAccess db1 (str "grant") (str "cred_1") = (true, db1).
Proof.
  eexists. split; [vm_compute; reflexivity|].
  repeat split; try (vm_compute; reflexivity).
  eexists; split; vm_compute; reflexivity.
Qed.

(** A grant on something that is not the id of a credential is not
    stored at all. *)
Lemma createGrant_unknown_credential :
  createGrant ungranted_db half_hour_grant 0
  = Throw (SqliteError (str "SQLITE_CONSTRAINT_FOREIGNKEY")).
Proof. vm_compute; reflexivity. Qed.

End VaultDBFacts.

(** ** The category API *)

Module CategoryApiFacts.
Import CategoryApi Examples.

(** [GET /api/categories] sends the projection, which has no [pattern]. *)
Lemma get_categories_hides_patterns (piiSchema : option Schema) :
  exposed_patterns (body (get_categories piiSchema)) = [].
Proof. destruct piiSchema; reflexivity. Qed.

(** [GET /api/category/:id] sends the whole category of a known id. *)
Lemma get_category_sends_category (schema : Schema) (wanted : jsstring) (c : Category) :
  find_category (Some schema) wanted = Some c ->
  get_category (Some schema) wanted = mkResponse 200 (CategoryBody c).
Proof.
  intros H; unfold get_category; rewrite H; reflexivity.
Qed.

(** A rejected value is answered with the whole category as well. *)
Lemma post_vault_item_add_rejected (regex_test : jsstring -> jsstring -> bool)
    (schema : Schema) (namespace name categoryId value : jsstring) (c : Category) :
  namespace <> [] -> name <> [] -> categoryId <> [] -> value <> [] ->
  find_category (Some schema) categoryId = Some c ->
  regex_test (pattern c) value = false ->
  exposed_patterns
    (body (post_vault_item_add regex_test (Some schema) namespace name categoryId value))
  = [pattern c].
Proof.
  intros H1 H2 H3 H4 Hfind Htest.
  unfold post_vault_item_add, validatePattern.
  destruct namespace, name, categoryId, value; try congruence.
  cbn [is_empty orb]. rewrite Hfind, Htest. reflexivity.
Qed.

(** C5: the reply of [GET /api/category/ssn] is the whole category
    object of the schema, and with it the validation pattern itself. *)
Theorem get_category_exposes_pattern :
  get_category (Some documented_schema) (str "ssn")
  = mkResponse 200 (CategoryBody ssn_category) /\
  exposed_patterns (body (get_category (Some documented_schema) (str "ssn")))
  = [str "^\d{3}-\d{2}-\d{4}$"].
Proof.
  split; vm_compute; reflexivity.
Qed.

(** The callback of [some] answers [true] for an item whose category the
    schema marks [critical] and [allowExport: false]. *)
Lemma is_critical_of_category (piiSchema : option Schema) (item : Item)
    (wanted : jsstring) (c : Category) :
  categoryId item = Some wanted -> find_category piiSchema wanted = Some c ->
  allowExport c = Some false -> sensitivityLevel c = str "critical" ->
  is_critical piiSchema item = true.
Proof.
  intros Hid Hfind Hexport Hlevel. unfold is_critical.
  rewrite Hid, Hfind, Hexport. apply bool_decide_eq_true_2; exact Hlevel.
Qed.

(** A batch holding at least one item of a category the schema marks
    [critical] and [allowExport: false] is refused as a whole, with
    status 403 and a body that carries no item, only the error text and
    the literal list. *)
Lemma post_vault_export_rejects_whole_batch
    (piiSchema : option Schema) (items : list Item) (now : timestamp)
    (item : Item) (wanted : jsstring) (c : Category) :
  item ∈ items ->
  categoryId item = Some wanted -> find_category piiSchema wanted = Some c ->
  allowExport c = Some false -> sensitivityLevel c = str "critical" ->
  post_vault_export piiSchema (Some items) now
  = mkResponse 403
      (ExportBlockedBody
         (str "Cannot export vault containing critical PII (SSN, credit card, API keys, private keys)")
         blockedCategories).
Proof.
  intros Hin Hid Hfind Hexport Hlevel. unfold post_vault_export.
  assert (E : existsb (is_critical piiSchema) items = true).
  { apply existsb_exists. exists item. split; [apply list_elem_of_In; exact Hin|].
    apply (is_critical_of_category piiSchema item wanted c); assumption. }
  rewrite E. reflexivity.
Qed.

(** One critical item among nine exportable ones. *)
Lemma post_vault_export_one_in_ten :
  post_vault_export (Some documented_schema)
    (Some (item_of "ssn" :: replicate 9 (item_of "email"))) 0
  = mkResponse 403
      (ExportBlockedBody
         (str "Cannot export vault containing critical PII (SSN, credit card, API keys, private keys)")
         blockedCategories).
Proof.
  apply (post_vault_export_rejects_whole_batch (Some documented_schema) _ 0
           (item_of "ssn") (str "ssn") ssn_category).
  - apply list_elem_of_here.
  - reflexivity.
  - vm_compute; reflexivity.
  - reflexivity.
  - reflexivity.
Qed.

(** C4: a batch whose only blocking item is a passport is refused as a
    whole, but the list sent with the refusal is the literal one: it is
    not the list of the blocking categories of the batch and does not
    even name [passport], the one category that blocks. *)
Theorem post_vault_export_fixed_list :
  let items := [item_of "email"; item_of "passport"] in
  blocking_categories (Some documented_schema) items = [str "passport"] /\
  exists error,
    post_vault_export (Some documented_schema) (Some items) 0
    = mkResponse 403 (ExportBlockedBody error
        [str "ssn"; str "credit_card"; str "api_key"; str "private_key";
         str "database_password"]) /\
    [str "ssn"; str "credit_card"; str "api_key"; str "private_key";
     str "database_password"]
    <> blocking_categories (Some documented_schema) items.
Proof.
  cbv zeta. split; [vm_compute; reflexivity|].
  eexists; split; [vm_compute; reflexivity|].
  vm_compute; discriminate.
Qed.

End CategoryApiFacts.

(** ** Extraction, parsing and failure of the token engine *)

Module ExtractionFacts.
Import TokenEngine TokenGrammar TokenGrammarFacts Examples.

Lemma matchAll_nil_iff (text : jsstring) :
  matchAll text = [] <-> validateTokenFormat text = false.
Proof.
  induction text as [|c text IH].
  - rewrite matchAll_unfold. split; reflexivity.
  - rewrite matchAll_unfold. cbn [validateTokenFormat].
    destruct (match_token (c :: text)) as [[t rest]|].
    + split; discriminate.
    + exact IH.
Qed.

(** X1: [extractTokens] finds no token exactly when
    [validateTokenFormat] rejects the text: the two readers of the
    pattern agree on which texts hold a token. *)
Theorem extractTokens_nil_iff_invalid (text : jsstring) :
  extractTokens text = [] <-> validateTokenFormat text = false.
Proof. apply matchAll_nil_iff. Qed.

Lemma matchAll_sound (s : jsstring) (t : VaultToken) :
  t ∈ matchAll s ->
  exists pre post ns cred fld,
    name_string ns /\ name_string cred /\ optional_name fld /\
    t = make_token ns cred fld /\ s = pre ++ token_text ns cred fld ++ post.
Proof.
  revert t. funelim (matchAll s); intros u Hu.
  - destruct (match_token_sound _ _ _ E) as (ns & cred & fld & Hns & Hcred & Hfld & -> & ->).
    apply elem_of_cons in Hu as [-> | Hu].
    + exists [], rest, ns, cred, fld. repeat first [assumption | reflexivity | split].
    + destruct (H u Hu) as (pre & post & ns' & cred' & fld' & ? & ? & ? & -> & ->).
      exists (token_text ns cred fld ++ pre), post, ns', cred', fld'.
      repeat first [assumption | reflexivity | split]. rewrite <- app_assoc. reflexivity.
  - apply elem_of_nil in Hu. contradiction.
  - destruct (H u Hu) as (pre & post & ns & cred & fld & ? & ? & ? & -> & ->).
    exists (a :: pre), post, ns, cred, fld. repeat first [assumption | reflexivity | split].
Qed.

(** X2: every token [extractTokens] returns is well formed (its
    namespace, credential and field are non-empty words over the name
    alphabet), its [raw] text is the token spelled from these parts, and
    that text occurs in the input. *)
Theorem extractTokens_sound (text : jsstring) (t : VaultToken) :
  t ∈ extractTokens text ->
  name_string (namespace t) /\ name_string (credential t) /\
  optional_name (field t) /\
  raw t = token_text (namespace t) (credential t) (field t) /\
  exists pre post, text = pre ++ raw t ++ post.
Proof.
  intros H. apply matchAll_sound in H
    as (pre & post & ns & cred & fld & Hns & Hcred & Hfld & -> & ->).
  cbn [namespace credential field raw make_token].
  repeat first [assumption | reflexivity | split]. exists pre, post; reflexivity.
Qed.

Lemma extractTokens_sound_witness :
  raw (make_token (str "finance") (str "schwab_api") None)
  = str "[VAULT:finance:schwab_api]".
Proof.
  refine (proj1 (proj2 (proj2 (proj2 (extractTokens_sound
            (str "[VAULT:personal:api_key] and [VAULT:finance:schwab_api]")
            (make_token (str "finance") (str "schwab_api") None) _))))).
  assert (E : extractTokens (str "[VAULT:personal:api_key] and [VAULT:finance:schwab_api]")
              = [ make_token (str "personal") (str "api_key") None;
                  make_token (str "finance") (str "schwab_api") None ])
    by (vm_compute; reflexivity).
  rewrite E. apply list_elem_of_further, list_elem_of_here.
Defined.

(** X3: [parseToken] returns the first token [extractTokens] finds, and
    [null] when there is none. *)
Theorem parseToken_first_extracted (token : jsstring) :
  parseToken token = head (extractTokens token).
Proof.
  unfold extractTokens. induction token as [|c token IH].
  - rewrite matchAll_unfold. reflexivity.
  - rewrite matchAll_unfold. cbn [parseToken].
    destruct (match_token (c :: token)) as [[t rest]|]; [reflexivity | exact IH].
Qed.

Lemma parseToken_here (s : jsstring) (t : VaultToken) (rest : jsstring) :
  match_token s = Some (t, rest) -> parseToken s = Some t.
Proof.
  intros H; destruct s; cbn [parseToken]; rewrite H; reflexivity.
Qed.

Lemma parseToken_spelled (ns cred : jsstring) (fld : option jsstring)
    (pre post : jsstring) :
  name_string ns -> name_string cred -> optional_name fld -> "["%char ∉ pre ->
  parseToken (pre ++ token_text ns cred fld ++ post) = Some (make_token ns cred fld).
Proof.
  intros Hns Hcred Hfld. induction pre as [|c pre IH]; intros Hpre.
  - apply (parseToken_here _ _ post). apply match_token_complete; assumption.
  - apply not_elem_of_cons in Hpre as [Hc Hpre].
    change ((c :: pre) ++ token_text ns cred fld ++ post)
      with (c :: (pre ++ token_text ns cred fld ++ post)).
    cbn [parseToken]. rewrite match_token_not_bracket by congruence.
    apply IH; assumption.
Qed.

(** X4: spelling a token and parsing it back is the identity, also when
    text without [[] precedes the token and any text follows it. *)
Theorem parseToken_token_text (ns cred : jsstring) (fld : option jsstring)
    (pre post : jsstring) :
  name_string ns -> name_string cred -> optional_name fld -> "["%char ∉ pre ->
  parseToken (pre ++ token_text ns cred fld ++ post) = Some (make_token ns cred fld).
Proof. apply parseToken_spelled. Qed.

Lemma parseToken_token_text_witness :
  parseToken (str "use [VAULT:business:aws.access_key] here")
  = Some (make_token (str "business") (str "aws") (Some (str "access_key"))).
Proof.
  apply (parseToken_token_text (str "business") (str "aws") (Some (str "access_key"))
           (str "use ") (str " here")); closed_conditions.
Defined.

(** X5: a text in which the pattern matches nowhere is returned
    unchanged by [substituteTokens], whatever the credentials are. *)
Theorem substituteTokens_without_tokens (text : jsstring) (creds : gmap jsstring Json) :
  validateTokenFormat text = false -> substituteTokens text creds = Ok text.
Proof.
  intros H. apply matchAll_nil_iff in H.
  unfold substituteTokens, extractTokens. rewrite H. reflexivity.
Qed.

Lemma substituteTokens_without_tokens_witness :
  substituteTokens (str "Invalid: [VAULT:invalid] and VAULT:personal:no_brackets")
                   chase_credentials
  = Ok (str "Invalid: [VAULT:invalid] and VAULT:personal:no_brackets").
Proof.
  apply substituteTokens_without_tokens. vm_compute; reflexivity.
Defined.

Lemma mapR_first_throw {A B} (f : A -> Result B) (l1 l2 : list A) (x : A) (e : JsError) :
  Forall (fun u => exists p, f u = Ok p) l1 -> f x = Throw e ->
  mapR f (l1 ++ x :: l2) = Throw e.
Proof.
  induction 1 as [|u l1 [p Hu] _ IH]; intros Hx; simpl.
  - rewrite Hx. reflexivity.
  - rewrite Hu. simpl. rewrite (IH Hx). reflexivity.
Qed.

Lemma resolveToken_unavailable (creds : gmap jsstring Json) (t : VaultToken) :
  unavailable creds t ->
  resolveToken t creds
  = Throw (credentialNotFound (credential_key (namespace t) (credential t))).
Proof.
  unfold unavailable, resolveToken.
  destruct (creds !! _) as [cred|]; [|reflexivity].
  intros ->. reflexivity.
Qed.

(** X6: when the tokens before it resolve and the credential of a token
    is missing, or is stored as the empty string, [null] or [false],
    [substituteTokens] fails as a whole with [CREDENTIAL_NOT_FOUND] naming
    that token's key: no partly substituted text is returned. *)
Theorem substituteTokens_credential_not_found
    (text : jsstring) (creds : gmap jsstring Json)
    (before after : list VaultToken) (t : VaultToken) :
  extractTokens text = before ++ t :: after ->
  Forall (fun u => exists p, resolveToken u creds = Ok p) before ->
  unavailable creds t ->
  substituteTokens text creds
  = Throw (VaultError
             (str "Credential not found: " ++ credential_key (namespace t) (credential t))
             (str "CREDENTIAL_NOT_FOUND")).
Proof.
  intros E Hbefore Ht. unfold substituteTokens. rewrite E.
  rewrite (mapR_first_throw _ before after t _ Hbefore (resolveToken_unavailable _ _ Ht)).
  reflexivity.
Qed.

Lemma substituteTokens_credential_not_found_witness :
  substituteTokens
    (str "[VAULT:personal:chase_login.username] then [VAULT:personal:missing_cred]")
    chase_credentials
  = Throw (VaultError (str "Credential not found: personal:missing_cred")
                      (str "CREDENTIAL_NOT_FOUND")).
Proof.
  apply (substituteTokens_credential_not_found _ chase_credentials
           [ make_token (str "personal") (str "chase_login") (Some (str "username")) ]
           []
           (make_token (str "personal") (str "missing_cred") None)).
  - vm_compute; reflexivity.
  - apply Forall_cons_2; [|apply Forall_nil_2]. eexists. vm_compute; reflexivity.
  - vm_compute; exact I.
Defined.

(** X7: when the tokens before it resolve, a token with a field
    selector whose credential is a (non-empty) string, or an object that
    neither owns nor inherits the field, makes [substituteTokens] fail as
    a whole with [FIELD_NOT_FOUND] naming the field and the key. *)
Theorem substituteTokens_field_not_found
    (text : jsstring) (creds : gmap jsstring Json)
    (before after : list VaultToken) (t : VaultToken) (fld : jsstring) (cred : Json) :
  extractTokens text = before ++ t :: after ->
  Forall (fun u => exists p, resolveToken u creds = Ok p) before ->
  field t = Some fld ->
  creds !! credential_key (namespace t) (credential t) = Some cred ->
  truthy cred = true ->
  match cred with
  | JObj props => own_property props fld = None /\ inherited fld = false
  | _ => True
  end ->
  substituteTokens text creds
  = Throw (VaultError
             (str "Field '" ++ fld ++ str "' not found in credential '"
              ++ credential_key (namespace t) (credential t) ++ str "'")
             (str "FIELD_NOT_FOUND")).
Proof.
  intros E Hbefore Hfld Hget Htruthy Hcred.
  assert (Hin : t ∈ matchAll text).
  { change (matchAll text) with (extractTokens text). rewrite E.
    apply elem_of_app. right. apply list_elem_of_here. }
  apply matchAll_sound in Hin as (_ & _ & ns & c & f & _ & _ & Hf & -> & _).
  cbn [field make_token] in Hfld. subst f. destruct Hf as [Hne _].
  pose proof (TokenEngineFacts.resolveToken_field_not_found
                (make_token ns c (Some fld)) creds cred fld eq_refl Hne Hget Htruthy Hcred) as Hr.
  unfold substituteTokens. rewrite E.
  rewrite (mapR_first_throw _ before after _ _ Hbefore Hr). reflexivity.
Qed.

Lemma substituteTokens_field_not_found_witness :
  substituteTokens (str "SSN: [VAULT:personal:pin.ssn]")
                   {[ str "personal:pin" := JStr (str "1234") ]}
  = Throw (VaultError (str "Field 'ssn' not found in credential 'personal:pin'")
                      (str "FIELD_NOT_FOUND")).
Proof.
  apply (substituteTokens_field_not_found _ _ [] []
           (make_token (str "personal") (str "pin") (Some (str "ssn")))
           (str "ssn") (JStr (str "1234"))).
  - vm_compute; reflexivity.
  - apply Forall_nil_2.
  - reflexivity.
  - vm_compute; reflexivity.
  - reflexivity.
  - exact I.
Defined.

End ExtractionFacts.

(** ** The credential and grant tables *)

Module StoreFacts.
Import VaultDB Examples.

Lemma find_none_all {A} (f : A -> bool) (l : list A) :
  (forall x, In x l -> f x = false) -> List.find f l = None.
Proof.
  induction l as [|x l IH]; intros H; [reflexivity|].
  simpl. rewrite (H x) by (left; reflexivity).
  apply IH. intros y Hy. apply H. right; exact Hy.
Qed.

Lemma find_app_none {A} (f : A -> bool) (l1 l2 : list A) :
  List.find f l1 = None -> List.find f (l1 ++ l2) = List.find f l2.
Proof.
  induction l1 as [|x l1 IH]; simpl; [reflexivity|].
  destruct (f x); [discriminate | exact IH].
Qed.

Lemma find_app_some {A} (f : A -> bool) (l1 l2 : list A) (r : A) :
  List.find f l1 = Some r -> List.find f (l1 ++ l2) = Some r.
Proof.
  induction l1 as [|x l1 IH]; simpl; [discriminate|].
  destruct (f x); [trivial | exact IH].
Qed.

Lemma find_filter_keep {A} (f g : A -> bool) (l : list A) (r : A) :
  List.find f l = Some r -> g r = true -> List.find f (List.filter g l) = Some r.
Proof.
  intros Hf Hg. induction l as [|x l IH]; simpl in *; [discriminate|].
  destruct (f x) eqn:Fx.
  - injection Hf as ->. rewrite Hg. simpl. rewrite Fx. reflexivity.
  - destruct (g x); simpl; [rewrite Fx|]; apply IH; exact Hf.
Qed.

Lemma conflicts_same_key (c row : Credential) :
  VaultDB.same_key (cred_namespace c) (cred_name c) row = true -> conflicts c row = true.
Proof.
  unfold same_key, conflicts. intros ->. apply orb_true_r.
Qed.

Lemma find_added (db : VaultDB.t) (c : Credential) :
  getCredential (replace_credential db c) (cred_namespace c) (cred_name c) = Some c.
Proof.
  unfold getCredential, replace_credential; cbn [credentials].
  rewrite find_app_none.
  - simpl. rewrite !bool_decide_eq_true_2 by reflexivity. reflexivity.
  - apply find_none_all. intros row Hrow.
    apply filter_In in Hrow as [_ Hrow].
    destruct (bool_decide (cred_namespace row = cred_namespace c)
              && bool_decide (cred_name row = cred_name c)) eqn:E; [|reflexivity].
    apply conflicts_same_key in E. rewrite E in Hrow. discriminate.
Qed.

Lemma addCredential_ok (db db' : VaultDB.t) (c : Credential) :
  addCredential db c = Ok db' ->
  db' = replace_credential db c /\ orphans_grant db c = false.
Proof.
  unfold addCredential. destruct (orphans_grant db c); [discriminate|].
  intros [= <-]. split; reflexivity.
Qed.



(** The foreign key makes the replacement fail, and change nothing, when
    the credential under the same name has another id and a grant. *)
Lemma addCredential_orphaning_refused :
  addCredential granted_db
    (mkCredential (str "cred_9") (str "personal") (str "api_key") (str "simple")
                  [] (str "high") (JStr (str "other")) (str "default") 9 9)
  = Throw (SqliteError (str "SQLITE_CONSTRAINT_FOREIGNKEY")).
Proof. vm_compute; reflexivity. Qed.

(** X9: [addCredential] leaves every other credential readable,
    provided it shares neither the id nor the (namespace, name) key with
    the new row; this holds of the database after the call whether the
    call succeeds or throws. *)
Theorem getCredential_addCredential_other
    (db : VaultDB.t) (c r : Credential) (namespace name : jsstring) :
  getCredential db namespace name = Some r ->
  conflicts c r = false ->
  getCredential (after db (addCredential db c)) namespace name = Some r.
Proof.
  intros Hfind Hconf. unfold addCredential.
  destruct (orphans_grant db c); cbn [after]; [exact Hfind|].
  unfold getCredential, replace_credential in *; cbn [credentials].
  apply find_app_some. apply find_filter_keep; [exact Hfind|].
  rewrite Hconf. reflexivity.
Qed.

Lemma getCredential_addCredential_other_witness :
  getCredential (after ungranted_db (addCredential ungranted_db schwab_credential))
                (str "personal") (str "api_key")
  = Some api_key_credential.
Proof.
  apply getCredential_addCredential_other; vm_compute; reflexivity.
Defined.

Lemma NoDup_fmap_eq {A B} (k : A -> B) (l : list A) (x y : A) :
  NoDup (k <$> l) -> x ∈ l -> y ∈ l -> k x = k y -> x = y.
Proof.
  induction l as [|z l IH]; intros Hnd Hx Hy Hk.
  - apply elem_of_nil in Hx. contradiction.
  - rewrite fmap_cons in Hnd. apply NoDup_cons in Hnd as [Hz Hl].
    apply elem_of_cons in Hx as [-> | Hx]; apply elem_of_cons in Hy as [-> | Hy].
    + reflexivity.
    + exfalso. apply Hz. rewrite Hk. apply list_elem_of_fmap. exists y; auto.
    + exfalso. apply Hz. rewrite <- Hk. apply list_elem_of_fmap. exists x; auto.
    + apply IH; assumption.
Qed.

(** X10: [INSERT OR REPLACE] also removes the row that holds the new
    row's id: when a credential is stored, with success, under the id of
    a credential with another (namespace, name) key, the earlier
    credential is gone from the table. *)
Theorem addCredential_replaces_same_id
    (db db' : VaultDB.t) (c r : Credential) (namespace name : jsstring) :
  constraints db ->
  addCredential db c = Ok db' ->
  getCredential db namespace name = Some r ->
  cred_id r = cred_id c -> row_key r <> row_key c ->
  getCredential db' namespace name = None.
Proof.
  intros (_ & Hkey & _) Hadd Hget Hid Hk.
  apply addCredential_ok in Hadd as [-> _].
  unfold getCredential in *. apply find_some in Hget as [Hr Hmatch].
  apply andb_prop in Hmatch as [Hns Hname]. apply bool_decide_eq_true in Hns, Hname.
  unfold replace_credential; cbn [credentials].
  rewrite find_app_none.
  - simpl. destruct (bool_decide (cred_namespace c = namespace)
                     && bool_decide (cred_name c = name)) eqn:E; [|reflexivity].
    apply andb_prop in E as [E1 E2]. apply bool_decide_eq_true in E1, E2.
    exfalso. apply Hk. unfold row_key. congruence.
  - apply find_none_all. intros x Hx.
    apply filter_In in Hx as [Hx Hkeep].
    destruct (bool_decide (cred_namespace x = namespace)
              && bool_decide (cred_name x = name)) eqn:E; [|reflexivity].
    apply andb_prop in E as [E1 E2]. apply bool_decide_eq_true in E1, E2.
    assert (x = r) as ->.
    { apply (NoDup_fmap_eq row_key (credentials db)); try assumption.
      - apply list_elem_of_In; exact Hx.
      - apply list_elem_of_In; exact Hr.
      - unfold row_key. congruence. }
    unfold conflicts in Hkeep. rewrite (bool_decide_eq_true_2 _ Hid) in Hkeep.
    discriminate.
Qed.

Lemma addCredential_replaces_same_id_witness :
  exists db',
    addCredential granted_db aws_credential = Ok db' /\
    getCredential db' (str "personal") (str "api_key") = None.
Proof.
  eexists; split; [vm_compute; reflexivity|].
  apply (addCredential_replaces_same_id granted_db _ aws_credential api_key_credential).
  - unfold constraints; closed_conditions.
  - vm_compute; reflexivity.
  - vm_compute; reflexivity.
  - reflexivity.
  - vm_compute; discriminate.
Defined.

Lemma NoDup_fmap_filter {A B} `{EqDecision B} (k : A -> B) (g : A -> bool) (l : list A) :
  NoDup (k <$> l) -> NoDup (k <$> List.filter g l).
Proof.
  induction l as [|x l IH]; simpl; [trivial|].
  rewrite NoDup_cons. intros [Hx Hl].
  destruct (g x); [|apply IH; exact Hl].
  simpl. apply NoDup_cons; split; [|apply IH; exact Hl].
  intros Hin. apply Hx.
  apply list_elem_of_fmap in Hin as (y & -> & Hy).
  apply list_elem_of_fmap. exists y; split; [reflexivity|].
  apply list_elem_of_In in Hy. apply filter_In in Hy as [Hy _].
  apply list_elem_of_In; exact Hy.
Qed.

Lemma NoDup_fmap_snoc {A B} (k : A -> B) (l : list A) (c : A) :
  NoDup (k <$> l) -> (forall x, x ∈ l -> k x <> k c) -> NoDup (k <$> (l ++ [c])).
Proof.
  intros Hl Hc. rewrite fmap_app. apply NoDup_app. split; [exact Hl|].
  split; [|apply NoDup_singleton].
  intros y Hy Hy'. apply list_elem_of_fmap in Hy as (x & -> & Hx).
  simpl in Hy'. apply list_elem_of_singleton in Hy'. exact (Hc x Hx Hy').
Qed.

Lemma kept_row (c row : Credential) (l : list Credential) :
  row ∈ List.filter (fun row => negb (conflicts c row)) l ->
  cred_id row <> cred_id c /\ row_key row <> row_key c.
Proof.
  intros H. apply list_elem_of_In in H. apply filter_In in H as [_ H].
  apply negb_true_iff in H. unfold conflicts in H.
  apply orb_false_iff in H as [Hid Hkey].
  apply bool_decide_eq_false in Hid. split; [exact Hid|].
  unfold row_key. intros [= Hns Hname].
  rewrite !bool_decide_eq_true_2 in Hkey by assumption. discriminate.
Qed.

Lemma orphans_grant_false (db : VaultDB.t) (c row : Credential) (grant_row : GrantRow) :
  orphans_grant db c = false ->
  grant_row ∈ access_grants db -> row ∈ credentials db ->
  cred_id row = credential_id grant_row -> conflicts c row = true ->
  cred_id row = cred_id c.
Proof.
  intros Hno Hg Hr Href Hconf.
  destruct (decide (cred_id row = cred_id c)) as [|Hne]; [assumption|].
  exfalso. assert (H : orphans_grant db c = true); [|congruence].
  unfold orphans_grant. apply existsb_exists. exists grant_row.
  split; [apply list_elem_of_In, Hg|].
  apply existsb_exists. exists row. split; [apply list_elem_of_In, Hr|].
  rewrite Hconf, (bool_decide_eq_false_2 _ Hne), (bool_decide_eq_true_2 _ (eq_sym Href)).
  reflexivity.
Qed.

(** X11: an [addCredential] that succeeds keeps every constraint of the
    schema, the foreign key included: after it no two credentials share
    an id or a (namespace, name) key, no two grants share an id, every
    grant still refers to the id of a stored credential, and the grant
    rows are the ones that were there before. *)
Theorem addCredential_constraints (db db' : VaultDB.t) (c : Credential) :
  consistent db -> addCredential db c = Ok db' ->
  consistent db' /\ access_grants db' = access_grants db.
Proof.
  intros [(Hid & Hkey & Hgrants) Hfk] Hadd.
  apply addCredential_ok in Hadd as [-> Hno].
  split; [|reflexivity]. split.
  - unfold constraints, replace_credential.
    cbn [credentials access_grants]. repeat split; [| |exact Hgrants].
    + apply NoDup_fmap_snoc; [apply NoDup_fmap_filter; exact Hid|].
      intros row Hrow. apply (kept_row c row _ Hrow).
    + apply NoDup_fmap_snoc; [apply NoDup_fmap_filter; exact Hkey|].
      intros row Hrow. apply (kept_row c row _ Hrow).
  - unfold replace_credential; cbn [credentials access_grants].
    rewrite Forall_forall in Hfk |- *. intros grant_row Hg.
    pose proof (Hfk grant_row Hg) as Hin.
    apply list_elem_of_fmap in Hin as (row & Href & Hrow).
    apply list_elem_of_fmap.
    destruct (conflicts c row) eqn:Hconf.
    + exists c. split.
      * rewrite Href. apply (orphans_grant_false db c row grant_row); auto.
      * apply elem_of_app; right. apply list_elem_of_here.
    + exists row. split; [exact Href|].
      apply elem_of_app; left. apply list_elem_of_In, filter_In.
      split; [apply list_elem_of_In, Hrow | rewrite Hconf; reflexivity].
Qed.

Lemma addCredential_constraints_witness :
  exists db',
    addCredential granted_db rotated_credential = Ok db' /\
    consistent db' /\ access_grants db' = access_grants granted_db.
Proof.
  eexists; split; [vm_compute; reflexivity|].
  apply (addCredential_constraints granted_db _ rotated_credential).
  - unfold consistent, constraints; closed_conditions.
  - vm_compute; reflexivity.
Defined.

Lemma filter_nonempty {A} (f : A -> bool) (l : list A) :
  (0 <? length (List.filter f l))%nat = true <-> exists x, x ∈ l /\ f x = true.
Proof.
  rewrite Nat.ltb_lt. split.
  - destruct (List.filter f l) as [|x rest] eqn:E; [simpl; lia|]. intros _.
    assert (Hx : In x (List.filter f l)) by (rewrite E; left; reflexivity).
    apply filter_In in Hx as [Hx Hf]. exists x; split; [apply list_elem_of_In, Hx | exact Hf].
  - intros (x & Hx & Hf).
    assert (Hin : In x (List.filter f l))
      by (apply filter_In; split; [apply list_elem_of_In, Hx | exact Hf]).
    destruct (List.filter f l); [destruct Hin | simpl; lia].
Qed.

(** X12: [hasAccess] answers [true] exactly when [access_grants] holds a
    row for that agent and that credential with [is_active = 1]; the
    remaining uses of the row play no part. *)
Theorem hasAccess_iff_active_grant (db : VaultDB.t) (agentId credentialId : jsstring) :
  fst (hasAccess db agentId credentialId) = true <->
  exists row, row ∈ access_grants db /\ active_grant agentId credentialId row.
Proof.
  unfold hasAccess; cbn [fst]. rewrite filter_nonempty.
  split; intros (row & Hin & H); exists row; (split; [exact Hin|]).
  - apply andb_prop in H as [H Hact]. apply andb_prop in H as [Hag Hcr].
    apply bool_decide_eq_true in Hag, Hcr. apply Z.eqb_eq in Hact.
    repeat split; assumption.
  - destruct H as (Hag & Hcr & Hact).
    rewrite !bool_decide_eq_true_2 by assumption.
    apply Z.eqb_eq in Hact. rewrite Hact. reflexivity.
Qed.

(** X13: a [createGrant] that succeeds keeps every constraint of the
    schema, the foreign key included: a grant whose id is already taken,
    or whose credential id is not the id of a stored credential, is not
    stored, so grant ids stay unique and every grant refers to a stored
    credential; the credentials are the ones that were there before. *)
Theorem createGrant_constraints (db db' : VaultDB.t) (grant : AccessGrant) (now : timestamp) :
  consistent db -> createGrant db grant now = Ok db' ->
  consistent db' /\ credentials db' = credentials db.
Proof.
  intros [(Hid & Hkey & Hgrants) Hfk]. unfold createGrant.
  destruct (existsb _ (access_grants db)) eqn:E; [discriminate|].
  destruct (existsb _ (credentials db)) eqn:F; cbn [negb]; [|discriminate].
  intros [= <-]. split; [|reflexivity]. split.
  - unfold constraints; cbn [credentials access_grants].
    repeat split; [exact Hid | exact Hkey |].
    apply NoDup_fmap_snoc; [exact Hgrants|].
    intros row Hrow. cbn [row_id]. intros Heq.
    assert (Hex : existsb (fun row => bool_decide (row_id row = grant_id grant))
                          (access_grants db) = true).
    { apply existsb_exists. exists row. split; [apply list_elem_of_In, Hrow|].
      apply bool_decide_eq_true_2; exact Heq. }
    rewrite Hex in E. discriminate.
  - cbn [credentials access_grants]. apply Forall_app. split; [exact Hfk|].
    apply Forall_cons_2; [|apply Forall_nil_2]. cbn [credential_id].
    apply existsb_exists in F as (row & Hrow & Href).
    apply bool_decide_eq_true in Href.
    apply list_elem_of_fmap. exists row. split; [symmetry; exact Href|].
    apply list_elem_of_In; exact Hrow.
Qed.

Lemma createGrant_constraints_witness :
  exists db',
    createGrant ungranted_db single_use_grant 0 = Ok db' /\
    consistent db' /\ credentials db' = credentials ungranted_db.
Proof.
  eexists; split; [vm_compute; reflexivity|].
  eapply (createGrant_constraints ungranted_db _ single_use_grant 0).
  - unfold consistent, constraints; closed_conditions.
  - vm_compute; reflexivity.
Defined.

(** X14: a second grant with an id that is already in [access_grants]
    is refused with the primary-key error, whatever else it holds. *)
Theorem createGrant_duplicate_id (db : VaultDB.t) (grant : AccessGrant)
    (now : timestamp) (row : GrantRow) :
  row ∈ access_grants db -> row_id row = grant_id grant ->
  createGrant db grant now = Throw (SqliteError (str "SQLITE_CONSTRAINT_PRIMARYKEY")).
Proof.
  intros Hrow Heq. unfold createGrant.
  assert (Hex : existsb (fun row => bool_decide (row_id row = grant_id grant))
                        (access_grants db) = true).
  { apply existsb_exists. exists row. split; [apply list_elem_of_In, Hrow|].
    apply bool_decide_eq_true_2; exact Heq. }
  rewrite Hex. reflexivity.
Qed.

Lemma createGrant_duplicate_id_witness :
  createGrant granted_db single_use_grant 5
  = Throw (SqliteError (str "SQLITE_CONSTRAINT_PRIMARYKEY")).
Proof.
  apply (createGrant_duplicate_id granted_db single_use_grant 5
           (mkGrantRow (str "g1") (str "cred_1") (str "grant") None 1 0)).
  - apply list_elem_of_here.
  - reflexivity.
Defined.

(** X15: storing a grant changes the answer of [hasAccess] for the
    grant's own agent and credential only, and only when the grant is
    active; every access that was allowed before stays allowed. *)
Theorem hasAccess_createGrant (db db' : VaultDB.t) (grant : AccessGrant) (now : timestamp)
    (agent credential : jsstring) :
  createGrant db grant now = Ok db' ->
  fst (hasAccess db' agent credential)
  = fst (hasAccess db agent credential)
    || (isActive grant && bool_decide (agentId grant = agent)
        && bool_decide (credentialId grant = credential)).
Proof.
  unfold createGrant.
  destruct (existsb _ (access_grants db)); [discriminate|].
  destruct (negb _); [discriminate|].
  intros [= <-]. unfold hasAccess; cbn [fst access_grants].
  rewrite List.filter_app, List.length_app.
  cbn [List.filter agent_id credential_id is_active].
  destruct (isActive grant), (bool_decide (agentId grant = agent)),
    (bool_decide (credentialId grant = credential)); simpl;
    destruct (length (List.filter _ (access_grants db))); simpl; try reflexivity;
    rewrite ?Nat.add_0_r; reflexivity.
Qed.

Lemma hasAccess_createGrant_witness :
  exists db',
    createGrant ungranted_db single_use_grant 0 = Ok db' /\
    fst (hasAccess db' (str "mallory") (str "cred_1")) = false.
Proof.
  eexists; split; [vm_compute; reflexivity|].
  rewrite (hasAccess_createGrant ungranted_db _ single_use_grant 0)
    by (vm_compute; reflexivity).
  vm_compute; reflexivity.
Defined.

(** X16: a credential that [getCredential] finds is among those
    [listCredentials] returns for its namespace, and among all of them
    when no namespace is given. *)
Theorem getCredential_listed (db : VaultDB.t) (namespace name : jsstring) (c : Credential) :
  getCredential db namespace name = Some c ->
  c ∈ listCredentials db (Some namespace) /\ c ∈ listCredentials db None.
Proof.
  unfold getCredential. intros H. apply find_some in H as [Hin Hc].
  apply andb_prop in Hc as [Hns _]. apply bool_decide_eq_true in Hns.
  split; [|apply list_elem_of_In; exact Hin].
  unfold listCredentials. destruct namespace as [|n ns]; [apply list_elem_of_In; exact Hin|].
  apply list_elem_of_In, filter_In. split; [exact Hin|].
  apply bool_decide_eq_true_2; exact Hns.
Qed.

Lemma getCredential_listed_witness :
  schwab_credential ∈ listCredentials granted_db (Some (str "finance")) /\
  schwab_credential ∈ listCredentials granted_db None.
Proof.
  apply (getCredential_listed granted_db (str "finance") (str "schwab_api")).
  vm_compute; reflexivity.
Defined.

End StoreFacts.

(** ** Requests to the MCP server *)

Module ServerFacts.
Import TokenEngine TokenGrammar TokenGrammarFacts TokenEngineFacts McpServer Examples.

Lemma name_string_no_colon (w : jsstring) : name_string w -> ":"%char ∉ w.
Proof.
  intros [_ H]. induction H as [|c w Hc _ IH]; [apply not_elem_of_nil|].
  apply not_elem_of_cons; split; [|exact IH].
  intros <-. vm_compute in Hc. discriminate.
Qed.

Lemma split_on_free (sep : ascii) (w : jsstring) : sep ∉ w -> split_on sep w = [w].
Proof.
  induction w as [|c w IH]; intros H; [reflexivity|].
  apply not_elem_of_cons in H as [Hc Hw]. simpl.
  destruct (Ascii.eqb_spec c sep); [congruence|].
  rewrite (IH Hw). reflexivity.
Qed.

Lemma split_on_app (sep : ascii) (w rest : jsstring) :
  sep ∉ w -> split_on sep (w ++ sep :: rest) = w :: split_on sep rest.
Proof.
  induction w as [|c w IH]; intros H; simpl.
  - rewrite Ascii.eqb_refl. reflexivity.
  - apply not_elem_of_cons in H as [Hc Hw].
    destruct (Ascii.eqb_spec c sep); [congruence|].
    rewrite (IH Hw). reflexivity.
Qed.

Lemma split_on_credential_key (ns name : jsstring) :
  name_string ns -> name_string name ->
  split_on ":" (credential_key ns name) = [ns; name].
Proof.
  intros Hns Hname. unfold credential_key.
  change (ns ++ str ":" ++ name) with (ns ++ ":"%char :: name).
  rewrite split_on_app by (apply name_string_no_colon; exact Hns).
  rewrite split_on_free by (apply name_string_no_colon; exact Hname).
  reflexivity.
Qed.

Lemma hasAccess_js_spec (db : VaultDB.t) (agent ns name : jsstring) :
  name_string ns -> name_string name ->
  hasAccess_js db agent (credential_key ns name) = true <->
  exists c, VaultDB.getCredential db ns name = Some c /\ cred_id c <> [] /\
            fst (VaultDB.hasAccess db agent (cred_id c)) = true.
Proof.
  intros Hns Hname. unfold hasAccess_js.
  rewrite split_on_credential_key by assumption.
  destruct (VaultDB.getCredential db ns name) as [c|].
  - destruct (cred_id c) as [|i0 i] eqn:Hid.
    + split; [discriminate|]. intros (c' & [= <-] & Hne & _). congruence.
    + split.
      * intros H. exists c. rewrite Hid. repeat split; [discriminate | exact H].
      * intros (c' & [= <-] & _ & H). rewrite Hid in H. exact H.
  - split; [discriminate|]. intros (c & H & _). discriminate.
Qed.

(** X17: for a key spelled from a namespace and a name of the token
    alphabet, the compiled server's [hasAccess] allows the agent exactly
    when the database holds that credential with a non-empty id and
    [VaultDB.hasAccess] allows the agent for this id. *)
Theorem hasAccess_js_iff (db : VaultDB.t) (agent ns name : jsstring) :
  name_string ns -> name_string name ->
  hasAccess_js db agent (credential_key ns name) = true <->
  exists c, VaultDB.getCredential db ns name = Some c /\ cred_id c <> [] /\
            fst (VaultDB.hasAccess db agent (cred_id c)) = true.
Proof. apply hasAccess_js_spec. Qed.

Lemma hasAccess_js_iff_witness :
  hasAccess_js granted_db (str "grant") (credential_key (str "personal") (str "api_key"))
  = true <->
  exists c, VaultDB.getCredential granted_db (str "personal") (str "api_key") = Some c /\
            cred_id c <> [] /\
            fst (VaultDB.hasAccess granted_db (str "grant") (cred_id c)) = true.
Proof.
  apply hasAccess_js_iff; closed_conditions.
Defined.

(** X18: the compiled server denies by default: an agent for which
    [access_grants] holds no row is refused every request whose text has
    a token, with the error naming the first token's key. *)
Theorem handleTokenSubstitution_js_default_deny
    (db : VaultDB.t) (text agent_id : jsstring) (t : VaultToken) (rest : list VaultToken) :
  (forall row, row ∈ VaultDB.access_grants db -> VaultDB.agent_id row <> agent_id) ->
  extractTokens text = t :: rest ->
  handleTokenSubstitution_js db text agent_id
  = Throw (VaultError
             (str "No access to " ++ credential_key (namespace t) (credential t))
             (str "AUTH_FAILED")).
Proof.
  intros Hnone E.
  unfold handleTokenSubstitution_js, handleTokenSubstitution_with. rewrite E.
  cbn [check_tokens].
  destruct (hasAccess_js db agent_id (credential_key (namespace t) (credential t))) eqn:A.
  - apply McpServerFacts.hasAccess_js_needs_active_grant in A
      as (c & row & _ & Hrow & Hag & _).
    destruct (Hnone row Hrow Hag).
  - reflexivity.
Qed.

Lemma handleTokenSubstitution_js_default_deny_witness :
  handleTokenSubstitution_js granted_db
    (str "[VAULT:personal:api_key] and [VAULT:finance:schwab_api]") (str "mallory")
  = Throw (VaultError (str "No access to personal:api_key") (str "AUTH_FAILED")).
Proof.
  apply (handleTokenSubstitution_js_default_deny granted_db _ (str "mallory")
           (make_token (str "personal") (str "api_key") None)
           [make_token (str "finance") (str "schwab_api") None]).
  - intros row Hrow. apply list_elem_of_singleton in Hrow as ->. discriminate.
  - vm_compute; reflexivity.
Defined.

Lemma extractTokens_single (ns name pre post : jsstring) :
  name_string ns -> name_string name -> "["%char ∉ pre -> "["%char ∉ post ->
  extractTokens (pre ++ token_text ns name None ++ post) = [make_token ns name None].
Proof.
  intros Hns Hname Hpre Hpost.
  pose proof (extractTokens_source [Gap pre; Tok ns name None; Gap post]) as H.
  cbn [source tokens_of] in H. rewrite app_nil_r in H. apply H.
  apply Forall_cons_2; [exact Hpre|].
  apply Forall_cons_2; [exact (conj Hns (conj Hname I))|].
  apply Forall_cons_2; [exact Hpost | apply Forall_nil_2].
Qed.

(** A request with one token for a granted credential that holds a plain
    string. *)
Lemma handle_single (hasAccess : jsstring -> jsstring -> bool)
    (lookupCredential : VaultToken -> option Credential)
    (agent_id ns name pre post v : jsstring) (c : Credential) :
  name_string ns -> name_string name -> "["%char ∉ pre -> "["%char ∉ post ->
  hasAccess agent_id (credential_key ns name) = true ->
  lookupCredential (make_token ns name None) = Some c ->
  encryptedData c = JStr v -> v <> [] -> plain_text v ->
  handleTokenSubstitution_with hasAccess lookupCredential
    (pre ++ token_text ns name None ++ post) agent_id
  = Ok (pre ++ v ++ post).
Proof.
  intros Hns Hname Hpre Hpost Hacc Hlook Hdata Hne Hplain.
  unfold handleTokenSubstitution_with.
  rewrite extractTokens_single by assumption.
  cbn [check_tokens build_credentials_map namespace credential make_token].
  rewrite Hacc, Hlook, Hdata. cbn [negb].
  unfold mbind, Result_bind.
  apply substituteTokens_single; try assumption; [exact I|].
  unfold replacement, resolveToken.
  cbn [namespace credential field raw make_token].
  rewrite lookup_insert_eq. destruct v as [|v0 v]; [congruence|]. reflexivity.
Qed.

Lemma createGrant_credentials (db db' : VaultDB.t) (grant : AccessGrant) (now : timestamp) :
  VaultDB.createGrant db grant now = Ok db' ->
  VaultDB.credentials db' = VaultDB.credentials db.
Proof.
  unfold VaultDB.createGrant. destruct (existsb _ _); [discriminate|].
  destruct (negb _); [discriminate|].
  intros [= <-]. reflexivity.
Qed.

(** X19: on the compiled server, once a credential holding a plain,
    non-empty string has been added with success and an active grant on
    its id has been stored for an agent, that agent's request with the
    credential's token returns the text with the stored string in place
    of the token. *)
Theorem handleTokenSubstitution_js_after_grant
    (db db1 db' : VaultDB.t) (id ns name description sensitivity v pre post : jsstring)
    (now now' : timestamp) (grant : AccessGrant) :
  name_string ns -> name_string name -> "["%char ∉ pre -> "["%char ∉ post ->
  id <> [] -> v <> [] -> plain_text v ->
  handleAddCredential_js db id now ns name (JStr v) description sensitivity = Ok db1 ->
  VaultDB.createGrant db1 grant now' = Ok db' ->
  isActive grant = true -> credentialId grant = id ->
  handleTokenSubstitution_js db' (pre ++ token_text ns name None ++ post) (agentId grant)
  = Ok (pre ++ v ++ post).
Proof.
  intros Hns Hname Hpre Hpost Hid Hne Hplain Hadd Hgrant Hactive Hcred.
  set (c := mkCredential id ns name (str "simple") description sensitivity (JStr v)
                         (str "default") now now).
  assert (Hget : VaultDB.getCredential db' ns name = Some c).
  { unfold VaultDB.getCredential. rewrite (createGrant_credentials _ _ _ _ Hgrant).
    apply StoreFacts.addCredential_ok in Hadd as [-> _].
    apply (StoreFacts.find_added db c). }
  unfold handleTokenSubstitution_js.
  apply (handle_single _ _ _ _ _ _ _ v c); try assumption; try reflexivity.
  - apply hasAccess_js_spec; try assumption.
    exists c. split; [exact Hget|]. split; [exact Hid|].
    cbn [cred_id c]. rewrite <- Hcred.
    eapply VaultDBFacts.hasAccess_after_createGrant; eassumption.
Qed.

Lemma handleTokenSubstitution_js_after_grant_witness :
  exists db1 db',
    handleAddCredential_js VaultDB.empty (str "cred_1") 0 (str "personal") (str "api_key")
                           (JStr (str "sk-live-123")) [] (str "high") = Ok db1 /\
    VaultDB.createGrant db1 single_use_grant 1 = Ok db' /\
    handleTokenSubstitution_js db' (str "key: [VAULT:personal:api_key]") (str "grant")
    = Ok (str "key: sk-live-123").
Proof.
  eexists; eexists; split; [vm_compute; reflexivity|].
  split; [vm_compute; reflexivity|].
  eapply (handleTokenSubstitution_js_after_grant VaultDB.empty _ _ (str "cred_1")
           (str "personal") (str "api_key") [] (str "high") (str "sk-live-123")
           (str "key: ") [] 0 1 single_use_grant);
    try (vm_compute; reflexivity); closed_conditions.
Defined.

(** X20: on the TypeScript server, a credential added with a plain,
    non-empty string is what any agent's request with its token receives
    in place of the token: adding and substituting round-trip, and no
    grant is consulted. *)
Theorem handleTokenSubstitution_ts_after_add
    (st : state) (id ns name description sensitivity v pre post agent_id : jsstring)
    (now : timestamp) :
  name_string ns -> name_string name -> "["%char ∉ pre -> "["%char ∉ post ->
  v <> [] -> plain_text v ->
  handleTokenSubstitution_ts
    (handleAddCredential_ts st id now ns name (JStr v) description sensitivity)
    (pre ++ token_text ns name None ++ post) agent_id
  = Ok (pre ++ v ++ post).
Proof.
  intros Hns Hname Hpre Hpost Hne Hplain.
  unfold handleTokenSubstitution_ts.
  eapply (handle_single _ _ _ _ _ _ _ v); try eassumption; try reflexivity.
  - cbn [namespace credential make_token handleAddCredential_ts credentials].
    apply lookup_insert_eq.
  - reflexivity.
Qed.

Lemma handleTokenSubstitution_ts_after_add_witness :
  handleTokenSubstitution_ts
    (handleAddCredential_ts ungranted_state (str "c9") 7 (str "finance") (str "schwab_api")
                            (JStr (str "schwab-456")) [] (str "high"))
    (str "token=[VAULT:finance:schwab_api];") (str "anyone")
  = Ok (str "token=schwab-456;").
Proof.
  apply (handleTokenSubstitution_ts_after_add ungranted_state (str "c9")
           (str "finance") (str "schwab_api") [] (str "high") (str "schwab-456")
           (str "token=") (str ";") (str "anyone") 7);
    closed_conditions.
Defined.

(** X21: a request whose text holds no token is answered with the text
    itself; no access check is made, so the answer does not depend on
    the agent or on any grant. *)
Theorem handleTokenSubstitution_without_tokens
    (hasAccess : jsstring -> jsstring -> bool)
    (lookupCredential : VaultToken -> option Credential) (text agent_id : jsstring) :
  validateTokenFormat text = false ->
  handleTokenSubstitution_with hasAccess lookupCredential text agent_id = Ok text.
Proof.
  intros H. apply ExtractionFacts.matchAll_nil_iff in H.
  unfold handleTokenSubstitution_with, extractTokens. rewrite H. reflexivity.
Qed.

Lemma handleTokenSubstitution_without_tokens_witness :
  handleTokenSubstitution_js VaultDB.empty (str "no [VAULT:tokens] here") (str "mallory")
  = Ok (str "no [VAULT:tokens] here").
Proof.
  apply handleTokenSubstitution_without_tokens. vm_compute; reflexivity.
Defined.

Lemma getCredential_stored (db : VaultDB.t) (c : Credential) :
  NoDup (VaultDB.row_key <$> VaultDB.credentials db) -> c ∈ VaultDB.credentials db ->
  VaultDB.getCredential db (cred_namespace c) (cred_name c) = Some c.
Proof.
  unfold VaultDB.getCredential.
  induction (VaultDB.credentials db) as [|x l IH]; intros Hnd Hc.
  - apply elem_of_nil in Hc. contradiction.
  - rewrite fmap_cons in Hnd. apply NoDup_cons in Hnd as [Hx Hl].
    cbn [List.find].
    destruct (bool_decide (cred_namespace x = cred_namespace c)
              && bool_decide (cred_name x = cred_name c)) eqn:E.
    + apply andb_prop in E as [E1 E2]. apply bool_decide_eq_true in E1, E2.
      apply elem_of_cons in Hc as [-> | Hc]; [reflexivity|].
      exfalso. apply Hx. apply list_elem_of_fmap. exists c. split; [|exact Hc].
      unfold VaultDB.row_key. congruence.
    + apply elem_of_cons in Hc as [-> | Hc].
      * rewrite !bool_decide_eq_true_2 in E by reflexivity. discriminate.
      * apply IH; assumption.
Qed.

(** X22: under the constraints of the schema, every credential in the
    table is the one [getCredential] returns for its own namespace and
    name. *)
Theorem getCredential_of_stored (db : VaultDB.t) (c : Credential) :
  VaultDB.constraints db -> c ∈ VaultDB.credentials db ->
  VaultDB.getCredential db (cred_namespace c) (cred_name c) = Some c.
Proof.
  intros (_ & Hkey & _). apply getCredential_stored; exact Hkey.
Qed.

Lemma getCredential_of_stored_witness :
  VaultDB.getCredential granted_db (str "finance") (str "schwab_api") = Some schwab_credential.
Proof.
  apply (getCredential_of_stored granted_db schwab_credential).
  - unfold VaultDB.constraints; closed_conditions.
  - apply list_elem_of_further, list_elem_of_here.
Defined.

Lemma listCredentials_subset (db : VaultDB.t) (namespace : option jsstring) (c : Credential) :
  c ∈ VaultDB.listCredentials db namespace -> c ∈ VaultDB.credentials db.
Proof.
  unfold VaultDB.listCredentials. destruct namespace as [[|n ns]|]; trivial.
  intros H. apply list_elem_of_In in H. apply filter_In in H as [H _].
  apply list_elem_of_In; exact H.
Qed.

(** X23: in the listing of the compiled server, the [hasAccess] flag
    shown to an agent is the answer a substitution request of that agent
    would get for the credential, and the [token] shown parses back to
    the credential's namespace and name. *)
Theorem handleListCredentials_js_entry
    (db : VaultDB.t) (namespace : option jsstring) (agent : jsstring) (e : ListedCredential) :
  VaultDB.constraints db -> well_named db -> agent <> [] ->
  e ∈ handleListCredentials_js db namespace (Some agent) ->
  listed_hasAccess e
  = hasAccess_js db agent (credential_key (listed_namespace e) (listed_name e)) /\
  parseToken (listed_token e)
  = Some (make_token (listed_namespace e) (listed_name e) None).
Proof.
  intros (_ & Hkey & _) Hnamed Hagent He.
  unfold handleListCredentials_js in He.
  apply list_elem_of_In, in_map_iff in He as (c & <- & Hc).
  apply list_elem_of_In, listCredentials_subset in Hc.
  destruct (Hnamed c Hc) as (Hns & Hname & Hid).
  cbn [listed_hasAccess listed_namespace listed_name listed_token]. split.
  - unfold hasAccess_js. rewrite split_on_credential_key by assumption.
    rewrite (getCredential_stored db c Hkey Hc).
    destruct agent as [|a0 a]; [congruence|].
    destruct (cred_id c) as [|i0 i]; [congruence|]. reflexivity.
  - pose proof (ExtractionFacts.parseToken_spelled
                  (cred_namespace c) (cred_name c) None [] [] Hns Hname I
                  (not_elem_of_nil _)) as H.
    rewrite app_nil_r in H. exact H.
Qed.

Lemma handleListCredentials_js_entry_witness :
  hasAccess_js granted_db (str "grant") (credential_key (str "personal") (str "api_key"))
  = true.
Proof.
  refine (eq_sym (proj1 (handleListCredentials_js_entry granted_db None (str "grant")
            (mkListed (str "personal") (str "api_key") []
                      (str "[VAULT:personal:api_key]") true) _ _ _ _))).
  - unfold VaultDB.constraints; closed_conditions.
  - intros c Hc. apply elem_of_cons in Hc as [-> | Hc];
      [|apply list_elem_of_singleton in Hc as ->]; closed_conditions.
  - discriminate.
  - vm_compute. apply list_elem_of_here.
Defined.

Lemma toISOString_in_range (t : Z) : (Z.abs t <= MAX_TIME)%Z -> toISOString t = Ok t.
Proof.
  intros H. unfold toISOString. apply Z.leb_le in H. rewrite H. reflexivity.
Qed.

(** One round of the loop of [handleGrantAccess], when both dates are in
    the range of [Date]. *)
Lemma handleGrantAccess_ts_round (st : state) (id credId : jsstring)
    (ids credential_ids : list jsstring) (agent_id purpose : jsstring)
    (duration_minutes max_uses : Z) (now : timestamp) :
  (Z.abs now <= MAX_TIME)%Z ->
  (duration_minutes <= 0 \/ Z.abs (now + duration_minutes * 60 * 1000) <= MAX_TIME)%Z ->
  handleGrantAccess_ts st (id :: ids) (credId :: credential_ids) agent_id duration_minutes
                       max_uses purpose now
  = handleGrantAccess_ts
      (mkState (credentials st)
         (<[id := mkGrant id credId agent_id purpose now
                    (if (0 <? duration_minutes)%Z
                     then Some (now + duration_minutes * 60 * 1000)%Z else None)
                    (if (0 <? max_uses)%Z then Some max_uses else None)
                    true]> (grants st)))
      ids credential_ids agent_id duration_minutes max_uses purpose now.
Proof.
  intros Hnow Hlater. cbn [handleGrantAccess_ts].
  rewrite (toISOString_in_range now Hnow). cbn [mbind Result_bind].
  destruct (0 <? duration_minutes)%Z eqn:D.
  - apply Z.ltb_lt in D. destruct Hlater as [Hle | Hlater]; [lia|].
    rewrite (toISOString_in_range _ Hlater). reflexivity.
  - reflexivity.
Qed.

Lemma handleGrantAccess_ts_other (st : state) (ids credential_ids : list jsstring)
    (agent_id purpose : jsstring) (duration_minutes max_uses : Z) (now : timestamp)
    (id : jsstring) :
  (Z.abs now <= MAX_TIME)%Z ->
  (duration_minutes <= 0 \/ Z.abs (now + duration_minutes * 60 * 1000) <= MAX_TIME)%Z ->
  id ∉ ids ->
  exists st',
    handleGrantAccess_ts st ids credential_ids agent_id duration_minutes max_uses
                         purpose now = Ok st' /\
    grants st' !! id = grants st !! id.
Proof.
  intros Hnow Hlater.
  revert st ids. induction credential_ids as [|cid rest IH]; intros st ids Hid.
  - exists st. destruct ids; split; reflexivity.
  - destruct ids as [|i ids']; [exists st; split; reflexivity|].
    apply not_elem_of_cons in Hid as [Hne Hid].
    rewrite handleGrantAccess_ts_round by assumption.
    match goal with
    | |- context [handleGrantAccess_ts ?s ids' rest] =>
        destruct (IH s ids' Hid) as (st1 & Hrun & Hsame)
    end.
    exists st1. split; [exact Hrun|].
    rewrite Hsame. cbn [grants]. apply lookup_insert_ne. congruence.
Qed.

(** X24: when the clock and the expiry date are in the range of [Date],
    [handleGrantAccess] of the TypeScript server returns and has stored,
    under each fresh id, an active grant for the credential id at the
    same position of the request: it expires [duration_minutes] after
    [now], or never when the duration is not positive, and it carries
    [max_uses] as its remaining uses, or none when that is not positive.
    The duration and the uses are whole numbers. *)
Theorem handleGrantAccess_ts_stores (st : state) (ids credential_ids : list jsstring)
    (agent_id purpose : jsstring) (duration_minutes max_uses : Z) (now : timestamp)
    (k : nat) (id credId : jsstring) :
  (Z.abs now <= MAX_TIME)%Z ->
  (duration_minutes <= 0 \/ Z.abs (now + duration_minutes * 60 * 1000) <= MAX_TIME)%Z ->
  NoDup ids -> ids !! k = Some id -> credential_ids !! k = Some credId ->
  exists st',
    handleGrantAccess_ts st ids credential_ids agent_id duration_minutes max_uses
                         purpose now = Ok st' /\
    grants st' !! id
    = Some (mkGrant id credId agent_id purpose now
              (if (0 <? duration_minutes)%Z
               then Some (now + duration_minutes * 60 * 1000)%Z else None)
              (if (0 <? max_uses)%Z then Some max_uses else None)
              true).
Proof.
  intros Hnow Hlater.
  revert st ids k. induction credential_ids as [|cid rest IH]; intros st ids k Hnd Hid Hcid.
  - discriminate.
  - destruct ids as [|i ids']; [discriminate|].
    apply NoDup_cons in Hnd as [Hi Hnd].
    rewrite handleGrantAccess_ts_round by assumption.
    destruct k as [|k].
    + injection Hid as ->. injection Hcid as ->.
      match goal with
      | |- context [handleGrantAccess_ts ?s ids' rest] =>
          destruct (handleGrantAccess_ts_other s ids' rest agent_id purpose duration_minutes
                      max_uses now id Hnow Hlater Hi) as (st1 & Hrun & Hsame)
      end.
      exists st1. split; [exact Hrun|].
      rewrite Hsame. cbn [grants]. apply lookup_insert_eq.
    + apply (IH _ ids' k); assumption.
Qed.

Lemma handleGrantAccess_ts_stores_witness :
  exists st',
    handleGrantAccess_ts ungranted_state [str "g1"; str "g2"]
      [str "personal:api_key"; str "finance:schwab_api"]
      (str "grant") 30 3 (str "audit") 1000 = Ok st' /\
    grants st' !! str "g2"
    = Some (mkGrant (str "g2") (str "finance:schwab_api") (str "grant") (str "audit")
                    1000 (Some 1801000%Z) (Some 3%Z) true).
Proof.
  apply (handleGrantAccess_ts_stores ungranted_state _ _ (str "grant") (str "audit")
           30 3 1000 1);
    [vm_compute; discriminate | right; vm_compute; discriminate
     | closed_conditions | reflexivity | reflexivity].
Defined.

(** Past the range of [Date] the expiry date cannot be written:
    [toISOString] throws and no grant is stored. *)
Lemma handleGrantAccess_ts_out_of_range :
  handleGrantAccess_ts ungranted_state [str "g1"] [str "personal:api_key"]
    (str "grant") 144000000000 0 (str "audit") 1000
  = Throw RangeError.
Proof. vm_compute; reflexivity. Qed.

End ServerFacts.

(** ** Requests to the category API *)

Module ApiFacts.
Import TokenEngine TokenGrammar CategoryApi Examples.

Lemma is_critical_true (piiSchema : option Schema) (item : Item) :
  is_critical piiSchema item = true ->
  exists wanted c,
    categoryId item = Some wanted /\ find_category piiSchema wanted = Some c /\
    allowExport c = Some false /\ sensitivityLevel c = str "critical".
Proof.
  unfold is_critical.
  destruct (categoryId item) as [wanted|]; [|discriminate].
  destruct (find_category piiSchema wanted) as [c|] eqn:F; [|discriminate].
  destruct (allowExport c) as [[|]|] eqn:A; try discriminate.
  intros H. apply bool_decide_eq_true in H. exists wanted, c; auto.
Qed.

Lemma existsb_none {A} (f : A -> bool) (l : list A) :
  (forall x, x ∈ l -> f x = false) -> existsb f l = false.
Proof.
  induction l as [|x l IH]; intros H; [reflexivity|].
  simpl. rewrite (H x) by apply list_elem_of_here.
  apply IH. intros y Hy. apply H. apply list_elem_of_further, Hy.
Qed.

(** X25: a batch none of whose items belongs to a category that is both
    [critical] and marked [allowExport: false] is exported: the reply is
    200 with [itemCount] equal to the size of the batch.  Items of an
    unknown category, and items of a category that is not exportable
    without being critical, do not block. *)
Theorem post_vault_export_allowed
    (piiSchema : option Schema) (items : list Item) (now : timestamp) :
  (forall item wanted c,
     item ∈ items -> categoryId item = Some wanted ->
     find_category piiSchema wanted = Some c ->
     allowExport c = Some false -> sensitivityLevel c <> str "critical") ->
  post_vault_export piiSchema (Some items) now
  = mkResponse 200
      (ExportedBody (length items) now
         (str "Never share exported vault data. Contains sensitive credentials.")).
Proof.
  intros H. unfold post_vault_export.
  rewrite existsb_none; [reflexivity|].
  intros item Hitem. destruct (is_critical piiSchema item) eqn:E; [|reflexivity].
  apply is_critical_true in E as (wanted & c & Hid & Hfind & Hexp & Hcrit).
  destruct (H item wanted c Hitem Hid Hfind Hexp Hcrit).
Qed.

Lemma post_vault_export_allowed_witness :
  post_vault_export (Some extended_schema)
    (Some [item_of "routing_number"; item_of "email"; item_of "unknown"]) 42
  = mkResponse 200
      (ExportedBody 3 42
         (str "Never share exported vault data. Contains sensitive credentials.")).
Proof.
  apply (post_vault_export_allowed (Some extended_schema)
           [item_of "routing_number"; item_of "email"; item_of "unknown"] 42).
  intros item wanted c Hitem Hid Hfind Hexp.
  repeat (apply elem_of_cons in Hitem as [-> | Hitem]);
    [| | |apply elem_of_nil in Hitem; contradiction];
    injection Hid as <-; vm_compute in Hfind; try discriminate;
    injection Hfind as <-; vm_compute in Hexp |- *; discriminate.
Defined.

(** X26: while the schema is not loaded, the export handler blocks
    nothing: every batch, whatever its categories, is answered with 200. *)
Theorem post_vault_export_schema_not_loaded (items : option (list Item)) (now : timestamp) :
  post_vault_export None items now
  = mkResponse 200
      (ExportedBody (match items with Some l => length l | None => 0 end) now
         (str "Never share exported vault data. Contains sensitive credentials.")).
Proof.
  unfold post_vault_export. destruct items as [l|]; [|reflexivity].
  rewrite existsb_none; [reflexivity|].
  intros item _. unfold is_critical. destruct (categoryId item); reflexivity.
Qed.

(** X27: the two endpoints that validate a value agree: for a non-empty
    namespace and name, [POST /api/vault-item/add] accepts a value (200)
    exactly when [POST /api/validate] reports it valid for the same
    category. *)
Theorem post_vault_item_add_iff_valid
    (regex_test : jsstring -> jsstring -> bool) (piiSchema : option Schema)
    (namespace name categoryId value : jsstring) :
  namespace <> [] -> name <> [] ->
  status (post_vault_item_add regex_test piiSchema namespace name categoryId value) = 200%Z
  <->
  exists c,
    post_validate regex_test piiSchema value categoryId
    = mkResponse 200 (ValidateBody true categoryId (sensitivityLevel c) (maskFormat c)).
Proof.
  intros Hns Hname. unfold post_vault_item_add, post_validate.
  destruct namespace as [|n0 ns]; [congruence|].
  destruct name as [|m0 nm]; [congruence|].
  destruct value as [|v0 v], categoryId as [|c0 cid]; cbn [is_empty orb];
    try (split; [discriminate | intros (c & H); discriminate]).
  destruct (find_category piiSchema (c0 :: cid)) as [c|] eqn:F;
    [|split; [discriminate | intros (c & H); discriminate]].
  destruct (validatePattern regex_test piiSchema (v0 :: v) (c0 :: cid)) eqn:V; cbn [negb status].
  - split; [intros _; exists c; reflexivity | reflexivity].
  - split; [discriminate | intros (c' & H); discriminate].
Qed.

Lemma post_vault_item_add_iff_valid_witness :
  status (post_vault_item_add documented_regex_test (Some documented_schema)
            (str "personal") (str "ssn") (str "ssn") (str "123-45-6789")) = 200%Z
  <->
  exists c,
    post_validate documented_regex_test (Some documented_schema)
                  (str "123-45-6789") (str "ssn")
    = mkResponse 200 (ValidateBody true (str "ssn") (sensitivityLevel c) (maskFormat c)).
Proof.
  apply post_vault_item_add_iff_valid; discriminate.
Defined.

(** X28: when the namespace and the name are words of the token
    alphabet, the token an accepted [POST /api/vault-item/add] returns is
    one the token engine parses back to that namespace and name. *)
Theorem post_vault_item_add_token_parses
    (regex_test : jsstring -> jsstring -> bool) (piiSchema : option Schema)
    (namespace name categoryId value token category sensitivity message : jsstring) :
  name_string namespace -> name_string name ->
  post_vault_item_add regex_test piiSchema namespace name categoryId value
  = mkResponse 200 (AddedBody token category sensitivity message) ->
  parseToken token = Some (make_token namespace name None).
Proof.
  intros Hns Hname. unfold post_vault_item_add.
  destruct (is_empty namespace || is_empty name || is_empty categoryId || is_empty value);
    [discriminate|].
  destruct (find_category piiSchema categoryId) as [c|]; [|discriminate].
  destruct (negb (validatePattern regex_test piiSchema value categoryId)); [discriminate|].
  intros [= <- _ _ _].
  pose proof (ExtractionFacts.parseToken_spelled namespace name None [] [] Hns Hname I
                (not_elem_of_nil _)) as H.
  rewrite app_nil_r in H. exact H.
Qed.

Lemma post_vault_item_add_token_parses_witness :
  parseToken (str "[VAULT:personal:ssn]")
  = Some (make_token (str "personal") (str "ssn") None).
Proof.
  apply (post_vault_item_add_token_parses documented_regex_test (Some documented_schema)
           (str "personal") (str "ssn") (str "ssn") (str "123-45-6789")
           (str "[VAULT:personal:ssn]") (str "ssn") (str "critical")
           (str "Added Social Security Number to vault"));
    [closed_conditions | closed_conditions | vm_compute; reflexivity].
Defined.

Lemma take_succ_take {A} (n : nat) (l : list A) : take n (take (S n) l) = take n l.
Proof.
  rewrite take_take. f_equal. lia.
Qed.

(** X29: [GET /api/audit-log] returns the entries newest first and at
    most 100 of them, and its [total] is the number returned (never more
    than 100), not the number in the file: after one more entry is
    appended, the reply starts with that entry, followed by the first 99
    of the previous reply. *)
Theorem get_audit_log_newest_first {Entry : Type} (log : list Entry) (e : Entry) :
  snd (get_audit_log (Some (log ++ [e])))
  = e :: take 99 (snd (get_audit_log (Some log))) /\
  fst (get_audit_log (Some log)) = length (snd (get_audit_log (Some log))) /\
  fst (get_audit_log (Some log)) = Nat.min 100 (length log).
Proof.
  unfold get_audit_log; cbn [fst snd]. repeat split.
  - rewrite rev_unit. cbn [take]. rewrite take_succ_take. reflexivity.
  - rewrite length_take, length_rev. lia.
Qed.

End ApiFacts.
